(** * Circuit residual model of the OpenMDAO tutorial scripts

    A shallow embedding of [circuit.py] (fixed current source) and
    [circuitBat.py] (battery variant): the component classes [Resistor],
    [Diode] and [Node], the wiring done by [Circuit.setup], and the
    module-level model of each script.

    Conventions of the embedding:
    - numpy [float64] scalars are idealised as real numbers ([float] below);
      rounding, infinities and NaN are outside the model, and so is a
      division by zero: the statements about a quotient take the divisor
      nonzero. The literal test of Ohm's law is also run on IEEE 754
      binary64 ([binary64] below);
    - the [inputs], [outputs] and [residuals] vectors are string-keyed
      dictionaries ([gmap string float]); a missing key raises [KeyError];
    - a method that assigns into [outputs] or [residuals] returns the updated
      dictionary, inside the exception monad [py];
    - the names bound at module level are listed per script, so that loading
      an unbound global raises [NameError]. *)

From Stdlib Require Import Reals Lra Floats.
From stdpp Require Import gmap strings list list_monad pretty.

Open Scope R_scope.

Abbreviation float := Rdefinitions.R.

(** ** Python runtime: exceptions, dictionaries, ranges, f-strings *)

Inductive exn : Type :=
  | KeyError (key : string)
  | NameError (name : string).

Definition py (A : Type) : Type := (exn + A)%type.

Definition ret {A} (a : A) : py A := inr a.
Definition raise {A} (e : exn) : py A := inl e.
Definition bind {A B} (c : py A) (k : A -> py B) : py B :=
  match c with
  | inl e => inl e
  | inr a => k a
  end.

Notation "x <- c ;; k" := (bind c (fun x => k))
  (at level 100, c at next level, right associativity).

(** [d[k]] *)
Definition getitem (d : gmap string float) (k : string) : py float :=
  match d !! k with
  | Some v => ret v
  | None => raise (KeyError k)
  end.

(** [range(n)]; empty when [n <= 0]. *)
Definition range (n : Z) : list Z := seqZ 0 n.

(** [f'{prefix}{i}'] *)
Definition fstr (prefix : string) (i : Z) : string := prefix +:+ pretty i.

(** [for x in xs: body], threading the mutated dictionary. *)
Fixpoint for_each {A S} (xs : list A) (body : A -> S -> py S) (s : S) : py S :=
  match xs with
  | [] => ret s
  | x :: xs' => s' <- body x s ;; for_each xs' body s'
  end.

(** Evaluation of a global name in a module whose bound names are [globals]. *)
Definition load_global (globals : list string) (name : string) : py unit :=
  if decide (name ∈ globals) then ret tt else raise (NameError name).

(** The value stored under [k] by a method that returned normally. *)
Definition result_at (k : string) (r : py (gmap string float)) : option float :=
  match r with
  | inr d => d !! k
  | inl _ => None
  end.

(** How a component declares a partial derivative. *)
Inductive partial_decl : Type :=
  | fd                      (* method='fd' *)
  | val (x : float)         (* constant value given in setup *)
  | analytic.               (* filled in by compute_partials *)

(** What a component's [setup] declares. *)
Record variables : Type := {
  var_inputs : list string;
  var_outputs : list string;
  var_partials : list (string * string * partial_decl)
}.

(** ** Model assembly: the part of [openmdao.api] the scripts call *)

Module om.

(** [add_subsystem(name, comp, promotes_inputs=[(old, new), ...])] *)
Record subsystem : Type := {
  name : string;
  vars : variables;
  promotes_inputs : list (string * string)
}.

(** A group after its [setup]: the subsystems added, in order, and the
    [connect(src, tgts)] calls made. *)
Record Group : Type := {
  subsystems : list subsystem;
  connections : list (string * list string)
}.

(** The name under which input [v] of [s] is visible in the group. *)
Definition promoted_name (s : subsystem) (v : string) : string :=
  match list_find (fun p => p.1 = v) (promotes_inputs s) with
  | Some (_, (_, alias)) => alias
  | None => name s +:+ "." +:+ v
  end.

(** The output a group-level input name is connected to, if any. *)
Definition connected_source (g : Group) (tgt : string) : option string :=
  match list_find (fun c => tgt ∈ c.2) (connections g) with
  | Some (_, (src, _)) => Some src
  | None => None
  end.

(** Where an input gets its value from: an output of the same group, or
    the group's own boundary under a promoted name. *)
Inductive wire : Type :=
  | Output (src : string)
  | GroupInput (alias : string).

Definition find_subsystem (g : Group) (sub : string) : option subsystem :=
  match list_find (fun s => name s = sub) (subsystems g) with
  | Some (_, s) => Some s
  | None => None
  end.

Definition source_of (g : Group) (sub v : string) : option wire :=
  match find_subsystem g sub with
  | Some s =>
      if decide (v ∈ var_inputs (vars s)) then
        let p := promoted_name s v in
        Some (match connected_source g p with
              | Some src => Output src
              | None => GroupInput p
              end)
      else None
  | None => None
  end.

(** A group used as a subsystem of an enclosing group: its inputs are the
    promoted names left unconnected inside, its outputs the subsystems'
    outputs under their dotted names. *)
Definition Group_vars (g : Group) : variables :=
  {| var_inputs :=
       remove_dups
         (flat_map (fun s =>
            filter (fun p => connected_source g p = None)
                   (promoted_name s <$> var_inputs (vars s)))
            (subsystems g));
     var_outputs :=
       flat_map (fun s => (fun v => name s +:+ "." +:+ v) <$> var_outputs (vars s))
                (subsystems g);
     var_partials := [] |}.

(** The absolute name of the output that feeds input [v] of subsystem
    [sub] of the group [g], itself the subsystem [gname] of [model]. *)
Definition resolve (model : Group) (gname : string) (g : Group)
    (sub v : string) : option string :=
  match source_of g sub v with
  | Some (Output src) => Some (gname +:+ "." +:+ src)
  | Some (GroupInput p) =>
      match source_of model gname p with
      | Some (Output src) => Some src
      | _ => None
      end
  | None => None
  end.

(** The same for an input of a direct subsystem of [model]. *)
Definition resolve_top (model : Group) (sub v : string) : option string :=
  match source_of model sub v with
  | Some (Output src) => Some src
  | _ => None
  end.

(** The inputs vector handed to a component: each declared input holds
    the value of the output it is connected to. [store] maps the absolute
    name of every output of the model to its current value. An input with
    no source, or whose source has no value in [store], is left out. *)
Definition gather (store : gmap string float) (src_of : string -> option string)
    (declared : list string) : gmap string float :=
  list_to_map
    (omap (M:=list) (fun v =>
       match src_of v with
       | Some src =>
           match store !! src with
           | Some x => Some (v, x)
           | None => None
           end
       | None => None
       end) declared).

(** [IndepVarComp(name, val)] *)
Record IndepVarComp : Type := { ivc_name : string; ivc_val : float }.

Definition IndepVarComp_setup (self : IndepVarComp) : variables :=
  {| var_inputs := []; var_outputs := [ivc_name self]; var_partials := [] |}.

(** [ExecComp('out = a - b')]: the expressions the scripts use. *)
Inductive expr : Type :=
  | Var (x : string)
  | Sub (a b : expr).

Record ExecComp : Type := { ec_out : string; ec_rhs : expr }.

Fixpoint expr_vars (e : expr) : list string :=
  match e with
  | Var x => [x]
  | Sub a b => expr_vars a ++ expr_vars b
  end.

Fixpoint eval (e : expr) (inputs : gmap string float) : py float :=
  match e with
  | Var x => getitem inputs x
  | Sub a b => x <- eval a inputs ;; y <- eval b inputs ;; ret (x - y)
  end.

Definition ExecComp_setup (self : ExecComp) : variables :=
  {| var_inputs := expr_vars (ec_rhs self);
     var_outputs := [ec_out self];
     var_partials := [] |}.

Definition ExecComp_compute (self : ExecComp) (inputs outputs : gmap string float)
  : py (gmap string float) :=
  v <- eval (ec_rhs self) inputs ;;
  ret (<[ec_out self := v]> outputs).

(** [BalanceComp()] followed by [add_balance(name)]: one state [name]
    with the inputs [lhs:name] and [rhs:name]. *)
Definition BalanceComp_setup (name : string) : variables :=
  {| var_inputs := ["lhs:" +:+ name; "rhs:" +:+ name];
     var_outputs := [name];
     var_partials := [] |}.

(** Modelled from the spec: the residual of the framework's [BalanceComp],
    whose code is not among the scripts. The spec describes it as "an
    algebraic balance equation" that makes "the voltage across the circuit
    match a target battery voltage": the residual is the difference of the
    two sides. The framework may scale it by a factor computed from the
    right-hand side; [normalization] stands for that factor. *)
Definition BalanceComp_apply_nonlinear (normalization : float -> float)
    (name : string) (inputs outputs residuals : gmap string float)
  : py (gmap string float) :=
  lhs <- getitem inputs ("lhs:" +:+ name) ;;
  rhs <- getitem inputs ("rhs:" +:+ name) ;;
  ret (<[name := (lhs - rhs) * normalization rhs]> residuals).

End om.

(** ** circuit.py *)

Module circuit.

(** Names bound at module level when [prob.run_model()] runs:
    [import openmdao.api as om], the four classes, [prob] and [model]. *)
Definition module_globals : list string :=
  ["om"; "Resistor"; "Diode"; "Node"; "Circuit"; "prob"; "model"].

Module Resistor.
Record options : Type := { R : float }.
Definition default : options := {| R := 1 |}.

Definition setup (self : options) : variables :=
  {| var_inputs := ["V_in"; "V_out"];
     var_outputs := ["I"];
     var_partials := [("I", "V_in", fd); ("I", "V_out", fd)] |}.

Definition compute (self : options) (inputs outputs : gmap string float)
  : py (gmap string float) :=
  V_in <- getitem inputs "V_in" ;;
  V_out <- getitem inputs "V_out" ;;
  let deltaV := V_in - V_out in
  ret (<["I" := deltaV / R self]> outputs).
End Resistor.

Module Diode.
Record options : Type := { Is : float; Vt : float }.
Definition default : options := {| Is := 1e-15; Vt := 0.025875 |}.

Definition setup (self : options) : variables :=
  {| var_inputs := ["V_in"; "V_out"];
     var_outputs := ["I"];
     var_partials := [("I", "V_in", fd); ("I", "V_out", fd)] |}.

Definition compute (self : options) (inputs outputs : gmap string float)
  : py (gmap string float) :=
  V_in <- getitem inputs "V_in" ;;
  V_out <- getitem inputs "V_out" ;;
  let deltaV := V_in - V_out in
  let Is := Is self in
  let Vt := Vt self in
  _ <- load_global module_globals "np" ;;
  ret (<["I" := Is * (exp (deltaV / Vt) - 1)]> outputs).
End Diode.

Module Node.
Record options : Type := { n_in : Z; n_out : Z }.
Definition default : options := {| n_in := 1; n_out := 1 |}.

Definition setup (self : options) : variables :=
  {| var_inputs := (fstr "I_in:" <$> range (n_in self))
                     ++ (fstr "I_out:" <$> range (n_out self));
     var_outputs := ["V"];
     var_partials := [("V", "I*", fd)] |}.

Definition apply_nonlinear (self : options)
    (inputs outputs residuals : gmap string float) : py (gmap string float) :=
  let residuals := <["V" := 0]> residuals in
  residuals <-
    for_each (range (n_in self)) (fun i_conn residuals =>
      r <- getitem residuals "V" ;;
      x <- getitem inputs (fstr "I_in:" i_conn) ;;
      ret (<["V" := r + x]> residuals)) residuals ;;
  for_each (range (n_out self)) (fun i_conn residuals =>
    r <- getitem residuals "V" ;;
    x <- getitem inputs (fstr "I_out:" i_conn) ;;
    ret (<["V" := r + x]> residuals)) residuals.
End Node.

Module Circuit.
Definition n1 : Node.options := {| Node.n_in := 1; Node.n_out := 2 |}.
Definition n2 : Node.options := Node.default.
Definition R1 : Resistor.options := {| Resistor.R := 100 |}.
Definition R2 : Resistor.options := {| Resistor.R := 10000 |}.
Definition D1 : Diode.options := Diode.default.

Definition setup : om.Group :=
  {| om.subsystems :=
       [ {| om.name := "n1"; om.vars := Node.setup n1;
            om.promotes_inputs := [("I_in:0", "I_in")] |};
         {| om.name := "n2"; om.vars := Node.setup n2;
            om.promotes_inputs := [] |};
         {| om.name := "R1"; om.vars := Resistor.setup R1;
            om.promotes_inputs := [("V_out", "Vg")] |};
         {| om.name := "R2"; om.vars := Resistor.setup R2;
            om.promotes_inputs := [] |};
         {| om.name := "D1"; om.vars := Diode.setup D1;
            om.promotes_inputs := [("V_out", "Vg")] |} ];
     om.connections :=
       [ ("n1.V", ["R1.V_in"; "R2.V_in"]);
         ("R1.I", ["n1.I_out:0"]);
         ("R2.I", ["n1.I_out:1"]);
         ("n2.V", ["R2.V_out"; "D1.V_in"]);
         ("R2.I", ["n2.I_in:0"]);
         ("D1.I", ["n2.I_out:0"]) ] |}.
End Circuit.

(** Module level: the problem's model. *)
Definition ground : om.IndepVarComp := {| om.ivc_name := "V"; om.ivc_val := 0 |}.
Definition source : om.IndepVarComp := {| om.ivc_name := "I"; om.ivc_val := 0.1 |}.

Definition model : om.Group :=
  {| om.subsystems :=
       [ {| om.name := "ground"; om.vars := om.IndepVarComp_setup ground;
            om.promotes_inputs := [] |};
         {| om.name := "source"; om.vars := om.IndepVarComp_setup source;
            om.promotes_inputs := [] |};
         {| om.name := "circuit"; om.vars := om.Group_vars Circuit.setup;
            om.promotes_inputs := [] |} ];
     om.connections :=
       [ ("source.I", ["circuit.I_in"]);
         ("ground.V", ["circuit.Vg"]) ] |}.

(** The independent variables hold their declared values in [store]. *)
Definition indeps_set (store : gmap string float) : Prop :=
  store !! "ground.V" = Some (om.ivc_val ground)
  /\ store !! "source.I" = Some (om.ivc_val source).

(** The inputs vector of a subsystem of [circuit]. *)
Definition circuit_inputs (store : gmap string float) (sub : string)
    (vars : variables) : gmap string float :=
  om.gather store (om.resolve model "circuit" Circuit.setup sub) (var_inputs vars).

(** The outputs vector of a subsystem of [circuit]. *)
Definition circuit_outputs (store : gmap string float) (sub : string)
    (vars : variables) : gmap string float :=
  om.gather store (fun v => Some ("circuit." +:+ sub +:+ "." +:+ v)) (var_outputs vars).

(** Residual evaluation of the two nodes in the assembled model. *)
Definition n1_apply_nonlinear (store residuals : gmap string float)
  : py (gmap string float) :=
  Node.apply_nonlinear Circuit.n1
    (circuit_inputs store "n1" (Node.setup Circuit.n1))
    (circuit_outputs store "n1" (Node.setup Circuit.n1)) residuals.

Definition n2_apply_nonlinear (store residuals : gmap string float)
  : py (gmap string float) :=
  Node.apply_nonlinear Circuit.n2
    (circuit_inputs store "n2" (Node.setup Circuit.n2))
    (circuit_outputs store "n2" (Node.setup Circuit.n2)) residuals.

(** Evaluation of the two resistors in the assembled model. *)
Definition R1_compute (store outputs : gmap string float) : py (gmap string float) :=
  Resistor.compute Circuit.R1
    (circuit_inputs store "R1" (Resistor.setup Circuit.R1)) outputs.

Definition R2_compute (store outputs : gmap string float) : py (gmap string float) :=
  Resistor.compute Circuit.R2
    (circuit_inputs store "R2" (Resistor.setup Circuit.R2)) outputs.

Definition D1_compute (store outputs : gmap string float) : py (gmap string float) :=
  Diode.compute Circuit.D1
    (circuit_inputs store "D1" (Diode.setup Circuit.D1)) outputs.

End circuit.

(** ** circuitBat.py *)

Module circuitBat.

(** Names bound at module level when [p.run_model()] runs: the two
    [__future__] features, [om], [np], the four classes, and the script's
    variables [p], [model], [bal] and [newton]. *)
Definition module_globals : list string :=
  ["division"; "print_function"; "om"; "np";
   "Resistor"; "Diode"; "Node"; "Circuit"; "p"; "model"; "bal"; "newton"].

Module Resistor.
Record options : Type := { R : float }.
Definition default : options := {| R := 1 |}.

Definition setup (self : options) : variables :=
  let R := R self in
  {| var_inputs := ["V_in"; "V_out"];
     var_outputs := ["I"];
     var_partials := [("I", "V_in", val (1 / R)); ("I", "V_out", val (-1 / R))] |}.

Definition compute (self : options) (inputs outputs : gmap string float)
  : py (gmap string float) :=
  V_in <- getitem inputs "V_in" ;;
  V_out <- getitem inputs "V_out" ;;
  let deltaV := V_in - V_out in
  ret (<["I" := deltaV / R self]> outputs).
End Resistor.

Module Diode.
Record options : Type := { Is : float; Vt : float }.
Definition default : options := {| Is := 1e-15; Vt := 0.025875 |}.

Definition setup (self : options) : variables :=
  {| var_inputs := ["V_in"; "V_out"];
     var_outputs := ["I"];
     var_partials := [("I", "V_in", analytic); ("I", "V_out", analytic)] |}.

Definition compute (self : options) (inputs outputs : gmap string float)
  : py (gmap string float) :=
  V_in <- getitem inputs "V_in" ;;
  V_out <- getitem inputs "V_out" ;;
  let deltaV := V_in - V_out in
  let Is := Is self in
  let Vt := Vt self in
  _ <- load_global module_globals "np" ;;
  ret (<["I" := Is * (exp (deltaV / Vt) - 1)]> outputs).

Definition compute_partials (self : options) (inputs : gmap string float)
    (J : gmap (string * string) float) : py (gmap (string * string) float) :=
  V_in <- getitem inputs "V_in" ;;
  V_out <- getitem inputs "V_out" ;;
  let deltaV := V_in - V_out in
  let Is := Is self in
  let Vt := Vt self in
  _ <- load_global module_globals "np" ;;
  let I := Is * exp (deltaV / Vt) in
  let J := <[("I", "V_in") := I / Vt]> J in
  ret (<[("I", "V_out") := - I / Vt]> J).
End Diode.

Module Node.
Record options : Type := { n_in : Z; n_out : Z }.
Definition default : options := {| n_in := 1; n_out := 1 |}.

Definition setup (self : options) : variables :=
  {| var_inputs := (fstr "I_in:" <$> range (n_in self))
                     ++ (fstr "I_out:" <$> range (n_out self));
     var_outputs := ["V"];
     var_partials := [("V", "I*", fd)] |}.

Definition apply_nonlinear (self : options)
    (inputs outputs residuals : gmap string float) : py (gmap string float) :=
  let residuals := <["V" := 0]> residuals in
  residuals <-
    for_each (range (n_in self)) (fun i_conn residuals =>
      r <- getitem residuals "V" ;;
      x <- getitem inputs (fstr "I_in:" i_conn) ;;
      ret (<["V" := r + x]> residuals)) residuals ;;
  for_each (range (n_out self)) (fun i_conn residuals =>
    r <- getitem residuals "V" ;;
    x <- getitem inputs (fstr "I_out:" i_conn) ;;
    ret (<["V" := r - x]> residuals)) residuals.
End Node.

Module Circuit.
Definition n1 : Node.options := {| Node.n_in := 1; Node.n_out := 2 |}.
Definition n2 : Node.options := Node.default.
Definition R1 : Resistor.options := {| Resistor.R := 100 |}.
Definition R2 : Resistor.options := {| Resistor.R := 10000 |}.
Definition D1 : Diode.options := Diode.default.

Definition setup : om.Group :=
  {| om.subsystems :=
       [ {| om.name := "n1"; om.vars := Node.setup n1;
            om.promotes_inputs := [("I_in:0", "I_in")] |};
         {| om.name := "n2"; om.vars := Node.setup n2;
            om.promotes_inputs := [] |};
         {| om.name := "R1"; om.vars := Resistor.setup R1;
            om.promotes_inputs := [("V_out", "Vg")] |};
         {| om.name := "R2"; om.vars := Resistor.setup R2;
            om.promotes_inputs := [] |};
         {| om.name := "D1"; om.vars := Diode.setup D1;
            om.promotes_inputs := [("V_out", "Vg")] |} ];
     om.connections :=
       [ ("n1.V", ["R1.V_in"; "R2.V_in"]);
         ("R1.I", ["n1.I_out:0"]);
         ("R2.I", ["n1.I_out:1"]);
         ("n2.V", ["R2.V_out"; "D1.V_in"]);
         ("R2.I", ["n2.I_in:0"]);
         ("D1.I", ["n2.I_out:0"]) ] |}.
End Circuit.

(** Module level: the problem's model, with the battery. *)
Definition ground : om.IndepVarComp := {| om.ivc_name := "V"; om.ivc_val := 0 |}.
Definition batt : om.IndepVarComp := {| om.ivc_name := "V"; om.ivc_val := 1.5 |}.
Definition batt_deltaV : om.ExecComp :=
  {| om.ec_out := "dV"; om.ec_rhs := om.Sub (om.Var "V1") (om.Var "V2") |}.

Definition model : om.Group :=
  {| om.subsystems :=
       [ {| om.name := "ground"; om.vars := om.IndepVarComp_setup ground;
            om.promotes_inputs := [] |};
         {| om.name := "batt"; om.vars := om.IndepVarComp_setup batt;
            om.promotes_inputs := [] |};
         {| om.name := "batt_balance"; om.vars := om.BalanceComp_setup "I";
            om.promotes_inputs := [] |};
         {| om.name := "circuit"; om.vars := om.Group_vars Circuit.setup;
            om.promotes_inputs := [] |};
         {| om.name := "batt_deltaV"; om.vars := om.ExecComp_setup batt_deltaV;
            om.promotes_inputs := [] |} ];
     om.connections :=
       [ ("batt_balance.I", ["circuit.I_in"]);
         ("ground.V", ["circuit.Vg"; "batt_deltaV.V2"]);
         ("circuit.n1.V", ["batt_deltaV.V1"]);
         ("batt.V", ["batt_balance.rhs:I"]);
         ("batt_deltaV.dV", ["batt_balance.lhs:I"]) ] |}.

(** The independent variables hold their declared values in [store]. *)
Definition indeps_set (store : gmap string float) : Prop :=
  store !! "ground.V" = Some (om.ivc_val ground)
  /\ store !! "batt.V" = Some (om.ivc_val batt).

(** The inputs vector of a subsystem of [circuit]. *)
Definition circuit_inputs (store : gmap string float) (sub : string)
    (vars : variables) : gmap string float :=
  om.gather store (om.resolve model "circuit" Circuit.setup sub) (var_inputs vars).

(** The outputs vector of a subsystem of [circuit]. *)
Definition circuit_outputs (store : gmap string float) (sub : string)
    (vars : variables) : gmap string float :=
  om.gather store (fun v => Some ("circuit." +:+ sub +:+ "." +:+ v)) (var_outputs vars).

(** The inputs vector of a direct subsystem of the model. *)
Definition top_inputs (store : gmap string float) (sub : string)
    (vars : variables) : gmap string float :=
  om.gather store (om.resolve_top model sub) (var_inputs vars).

Definition top_outputs (store : gmap string float) (sub : string)
    (vars : variables) : gmap string float :=
  om.gather store (fun v => Some (sub +:+ "." +:+ v)) (var_outputs vars).

(** Residual evaluation of the two nodes in the assembled model. *)
Definition n1_apply_nonlinear (store residuals : gmap string float)
  : py (gmap string float) :=
  Node.apply_nonlinear Circuit.n1
    (circuit_inputs store "n1" (Node.setup Circuit.n1))
    (circuit_outputs store "n1" (Node.setup Circuit.n1)) residuals.

Definition n2_apply_nonlinear (store residuals : gmap string float)
  : py (gmap string float) :=
  Node.apply_nonlinear Circuit.n2
    (circuit_inputs store "n2" (Node.setup Circuit.n2))
    (circuit_outputs store "n2" (Node.setup Circuit.n2)) residuals.

(** Evaluation of the explicit components in the assembled model. *)
Definition R1_compute (store outputs : gmap string float) : py (gmap string float) :=
  Resistor.compute Circuit.R1
    (circuit_inputs store "R1" (Resistor.setup Circuit.R1)) outputs.

Definition R2_compute (store outputs : gmap string float) : py (gmap string float) :=
  Resistor.compute Circuit.R2
    (circuit_inputs store "R2" (Resistor.setup Circuit.R2)) outputs.

Definition D1_compute (store outputs : gmap string float) : py (gmap string float) :=
  Diode.compute Circuit.D1
    (circuit_inputs store "D1" (Diode.setup Circuit.D1)) outputs.

Definition batt_deltaV_compute (store outputs : gmap string float)
  : py (gmap string float) :=
  om.ExecComp_compute batt_deltaV
    (top_inputs store "batt_deltaV" (om.ExecComp_setup batt_deltaV)) outputs.

(** [store] holds, for [batt_deltaV], the value its [compute] produces. *)
Definition batt_deltaV_computed (store : gmap string float) : Prop :=
  exists dV,
    result_at "dV" (batt_deltaV_compute store ∅) = Some dV
    /\ store !! "batt_deltaV.dV" = Some dV.

(** Residual evaluation of the balance in the assembled model. *)
Definition batt_balance_apply_nonlinear (normalization : float -> float)
    (store residuals : gmap string float) : py (gmap string float) :=
  om.BalanceComp_apply_nonlinear normalization "I"
    (top_inputs store "batt_balance" (om.BalanceComp_setup "I"))
    (top_outputs store "batt_balance" (om.BalanceComp_setup "I")) residuals.

End circuitBat.


(** ** The resistor's arithmetic on IEEE 754 binary64 *)

Module binary64.

(** The two floating-point operations of [Resistor.compute]. *)
Definition Resistor_current (R V_in V_out : PrimFloat.float) : PrimFloat.float :=
  let deltaV := PrimFloat.sub V_in V_out in
  PrimFloat.div deltaV R.

End binary64.

(** ** Vocabulary of the statements *)

(** The inputs vector holds every input the component's [setup] declared. *)
Definition declared_inputs_present (vars : variables) (inputs : gmap string float) : Prop :=
  forall v, v ∈ var_inputs vars -> is_Some (inputs !! v).

(** [[inputs[k] for k in keys]]: the first missing key raises. *)
Fixpoint read_all (inputs : gmap string float) (keys : list string) : py (list float) :=
  match keys with
  | [] => ret []
  | k :: ks => x <- getitem inputs k ;; xs <- read_all inputs ks ;; ret (x :: xs)
  end.

(** The body of either loop of [Node.apply_nonlinear]:
    [residuals['V'] op= inputs[f'{prefix}{i_conn}']]. *)
Definition loop_body (op : float -> float -> float) (prefix : string)
    (inputs : gmap string float) (i_conn : Z) (residuals : gmap string float)
  : py (gmap string float) :=
  r <- getitem residuals "V" ;;
  x <- getitem inputs (fstr prefix i_conn) ;;
  ret (<["V" := op r x]> residuals).

(** The current a [compute] call stored, [0] if it raised. *)
Definition output_I (r : py (gmap string float)) : float :=
  match result_at "I" r with
  | Some i => i
  | None => 0
  end.

(** A store of [circuit.py]'s model in which both resistors carry
    [-0.05 A]: the node voltages are [n1.V = -5] and [n2.V = 495]. *)
Definition reversed_currents_store : gmap string float :=
  {[ "ground.V" := 0; "source.I" := 0.1;
     "circuit.n1.V" := -5; "circuit.n2.V" := 495;
     "circuit.R1.I" := -0.05; "circuit.R2.I" := -0.05 ]}.

(** A store of [circuitBat.py]'s model with the ground at [0.5] and node
    [n1] at [2], so 1.5 above it. *)
Definition battery_store : gmap string float :=
  {[ "ground.V" := 0.5; "batt.V" := 1.5;
     "circuit.n1.V" := 2; "batt_deltaV.dV" := 2 - 0.5 ]}.

(** The wiring of [Circuit.setup] as C8 words it: both resistors between
    node 1 and node 2, the current of [R2] into node 2 and
    the current of the diode out of it, and [Vg] at the [V_out] terminal of
    the diode and of [R1]. *)
Definition variant_A_wiring_as_stated : Prop :=
  om.source_of circuit.Circuit.setup "R1" "V_in" = Some (om.Output "n1.V")
  /\ om.source_of circuit.Circuit.setup "R2" "V_in" = Some (om.Output "n1.V")
  /\ om.source_of circuit.Circuit.setup "R1" "V_out" = Some (om.Output "n2.V")
  /\ om.source_of circuit.Circuit.setup "R2" "V_out" = Some (om.Output "n2.V")
  /\ om.source_of circuit.Circuit.setup "n2" "I_in:0" = Some (om.Output "R2.I")
  /\ om.source_of circuit.Circuit.setup "n2" "I_out:0" = Some (om.Output "D1.I")
  /\ om.source_of circuit.Circuit.setup "D1" "V_out" = Some (om.GroupInput "Vg")
  /\ om.source_of circuit.Circuit.setup "R1" "V_out" = Some (om.GroupInput "Vg").

(** The store of [circuit.py] at its initial guesses [n1.V = 10], [n2.V = 1]. *)
Definition initial_store : gmap string float :=
  {[ "ground.V" := 0; "source.I" := 0.1;
     "circuit.n1.V" := 10; "circuit.n2.V" := 1 ]}.

(** The currents at the ports [prefix0 .. prefix(n-1)], in index order. *)
Definition port_values (inputs : gmap string float) (prefix : string) (n : Z)
  : list float :=
  (fun i => default 0 (inputs !! fstr prefix i)) <$> range n.

(** [store] holds under [name] the value a [compute] call stored under [k]. *)
Definition holds_output (store : gmap string float) (name : string)
    (k : string) (r : py (gmap string float)) : Prop :=
  exists x : float, result_at k r = Some x /\ store !! name = Some x.

(** A store of [circuitBat.py]'s model in which Kirchhoff's law holds at
    node [n2]: [R2.I] and [D1.I] are what the two components compute, and
    the residual of [n2] is zero. *)
Definition node2_balanced (store : gmap string float) : Prop :=
  holds_output store "circuit.R2.I" "I" (circuitBat.R2_compute store ∅)
  /\ holds_output store "circuit.D1.I" "I" (circuitBat.D1_compute store ∅)
  /\ result_at "V" (circuitBat.n2_apply_nonlinear store ∅) = Some 0.

(** A store of [circuitBat.py]'s model in which the diode conducts: node
    [n2] is one thermal voltage above the ground, and node [n1] above node
    [n2] by what drives the diode current through [R2]. *)
Definition conducting_store : gmap string float :=
  {[ "ground.V" := 0;
     "circuit.n2.V" := 0.025875;
     "circuit.n1.V" := 0.025875 + 1e-11 * (exp 1 - 1);
     "circuit.R2.I" := (0.025875 + 1e-11 * (exp 1 - 1) - 0.025875) / 10000;
     "circuit.D1.I" := 1e-15 * (exp ((0.025875 - 0) / 0.025875) - 1) ]}.

(** * Properties *)

(** ** The Python runtime *)

Lemma getitem_Some (d : gmap string float) (k : string) (v : float) :
  d !! k = Some v -> getitem d k = ret v.
Proof. unfold getitem. intros ->. reflexivity. Qed.

Lemma getitem_None (d : gmap string float) (k : string) :
  d !! k = None -> getitem d k = raise (KeyError k).
Proof. unfold getitem. intros ->. reflexivity. Qed.

Lemma getitem_insert (d : gmap string float) (k : string) (v : float) :
  getitem (<[k := v]> d) k = ret v.
Proof. apply getitem_Some, lookup_insert_eq. Qed.

Lemma bind_ret {A B} (a : A) (k : A -> py B) : bind (ret a) k = k a.
Proof. reflexivity. Qed.

Lemma bind_raise {A B} (e : exn) (k : A -> py B) : bind (raise e) k = raise e.
Proof. reflexivity. Qed.

Lemma load_global_bound (globals : list string) (name : string) :
  name ∈ globals -> load_global globals name = ret tt.
Proof. unfold load_global. intros H. rewrite decide_True by exact H. reflexivity. Qed.

Lemma load_global_unbound (globals : list string) (name : string) :
  name ∉ globals -> load_global globals name = raise (NameError name).
Proof. unfold load_global. intros H. rewrite decide_False by exact H. reflexivity. Qed.

(** ** The loops of [Node.apply_nonlinear] *)

Section node_loops.
Variable op : float -> float -> float.
Variable prefix : string.
Variable inputs : gmap string float.

Lemma for_each_accumulate (idx : list Z) :
  forall (r : float) (m : gmap string float),
    for_each idx (loop_body op prefix inputs) (<["V" := r]> m)
    = (xs <- read_all inputs (fstr prefix <$> idx) ;;
       ret (<["V" := fold_left op xs r]> m)).
Proof.
  induction idx as [|i idx IH]; intros r m.
  - reflexivity.
  - rewrite fmap_cons. cbn [for_each read_all].
    unfold loop_body at 1. rewrite getitem_insert, bind_ret.
    destruct (getitem inputs (fstr prefix i)) as [e|x]; cbn [bind ret].
    + reflexivity.
    + rewrite insert_insert_eq, IH. clear IH.
      destruct (read_all inputs (fstr prefix <$> idx)); reflexivity.
Qed.
End node_loops.

Lemma read_all_constant (inputs : gmap string float) (keys : list string) (c : float) :
  (forall k, k ∈ keys -> inputs !! k = Some c) ->
  read_all inputs keys = ret (replicate (length keys) c).
Proof.
  induction keys as [|k ks IH]; intros H; simpl.
  - reflexivity.
  - rewrite (getitem_Some _ _ c) by (apply H; left).
    rewrite bind_ret, IH by (intros k' Hk'; apply H; right; exact Hk').
    reflexivity.
Qed.

Lemma fold_left_plus_zeros (n : nat) (r : float) :
  fold_left Rplus (replicate n 0) r = r.
Proof.
  revert r. induction n as [|n IH]; intros r; simpl.
  - reflexivity.
  - rewrite IH. lra.
Qed.

Lemma fold_left_minus_zeros (n : nat) (r : float) :
  fold_left Rminus (replicate n 0) r = r.
Proof.
  revert r. induction n as [|n IH]; intros r; simpl.
  - reflexivity.
  - rewrite IH. lra.
Qed.

Lemma elem_of_range (n i : Z) : i ∈ range n <-> (0 <= i < n)%Z.
Proof. unfold range. rewrite elem_of_seqZ. lia. Qed.

(** Closed forms of the two residual computations. *)
Lemma circuit_Node_apply_nonlinear_eq (self : circuit.Node.options)
    (inputs outputs residuals : gmap string float) :
  circuit.Node.apply_nonlinear self inputs outputs residuals
  = (ins <- read_all inputs (fstr "I_in:" <$> range (circuit.Node.n_in self)) ;;
     outs <- read_all inputs (fstr "I_out:" <$> range (circuit.Node.n_out self)) ;;
     ret (<["V" := fold_left Rplus outs (fold_left Rplus ins 0)]> residuals)).
Proof.
  unfold circuit.Node.apply_nonlinear.
  rewrite (for_each_accumulate Rplus "I_in:" inputs).
  destruct (read_all inputs (fstr "I_in:" <$> range (circuit.Node.n_in self)))
    as [e|ins]; simpl; [reflexivity|].
  apply (for_each_accumulate Rplus "I_out:" inputs).
Qed.

Lemma circuitBat_Node_apply_nonlinear_eq (self : circuitBat.Node.options)
    (inputs outputs residuals : gmap string float) :
  circuitBat.Node.apply_nonlinear self inputs outputs residuals
  = (ins <- read_all inputs (fstr "I_in:" <$> range (circuitBat.Node.n_in self)) ;;
     outs <- read_all inputs (fstr "I_out:" <$> range (circuitBat.Node.n_out self)) ;;
     ret (<["V" := fold_left Rminus outs (fold_left Rplus ins 0)]> residuals)).
Proof.
  unfold circuitBat.Node.apply_nonlinear.
  rewrite (for_each_accumulate Rplus "I_in:" inputs).
  destruct (read_all inputs (fstr "I_in:" <$> range (circuitBat.Node.n_in self)))
    as [e|ins]; simpl; [reflexivity|].
  apply (for_each_accumulate Rminus "I_out:" inputs).
Qed.

(** ** Module-level names *)

Lemma np_unbound_in_circuit : "np" ∉ circuit.module_globals.
Proof. apply (bool_decide_unpack _). vm_compute. exact I. Qed.

Lemma np_bound_in_circuitBat : "np" ∈ circuitBat.module_globals.
Proof. apply (bool_decide_unpack _). vm_compute. exact I. Qed.

(** ** Component equations *)

Lemma circuit_Resistor_compute_eq (self : circuit.Resistor.options)
    (inputs outputs : gmap string float) (V_in V_out : float) :
  inputs !! "V_in" = Some V_in ->
  inputs !! "V_out" = Some V_out ->
  circuit.Resistor.compute self inputs outputs
  = ret (<["I" := (V_in - V_out) / circuit.Resistor.R self]> outputs).
Proof.
  intros Hin Hout. unfold circuit.Resistor.compute.
  rewrite (getitem_Some _ _ _ Hin), bind_ret.
  rewrite (getitem_Some _ _ _ Hout), bind_ret.
  reflexivity.
Qed.

Lemma circuitBat_Resistor_compute_eq (self : circuitBat.Resistor.options)
    (inputs outputs : gmap string float) (V_in V_out : float) :
  inputs !! "V_in" = Some V_in ->
  inputs !! "V_out" = Some V_out ->
  circuitBat.Resistor.compute self inputs outputs
  = ret (<["I" := (V_in - V_out) / circuitBat.Resistor.R self]> outputs).
Proof.
  intros Hin Hout. unfold circuitBat.Resistor.compute.
  rewrite (getitem_Some _ _ _ Hin), bind_ret.
  rewrite (getitem_Some _ _ _ Hout), bind_ret.
  reflexivity.
Qed.

Lemma circuitBat_Diode_compute_eq (self : circuitBat.Diode.options)
    (inputs outputs : gmap string float) (V_in V_out : float) :
  inputs !! "V_in" = Some V_in ->
  inputs !! "V_out" = Some V_out ->
  circuitBat.Diode.compute self inputs outputs
  = ret (<["I" := circuitBat.Diode.Is self
                  * (exp ((V_in - V_out) / circuitBat.Diode.Vt self) - 1)]> outputs).
Proof.
  intros Hin Hout. unfold circuitBat.Diode.compute.
  rewrite (getitem_Some _ _ _ Hin), bind_ret.
  rewrite (getitem_Some _ _ _ Hout), bind_ret.
  rewrite (load_global_bound _ _ np_bound_in_circuitBat), bind_ret.
  reflexivity.
Qed.

(** In [circuitBat.py] the diode current follows the Shockley equation and
    vanishes when the two terminals are at the same voltage. *)
Lemma circuitBat_Diode_compute_shockley (self : circuitBat.Diode.options)
    (inputs outputs : gmap string float) (V_in V_out : float) :
  0 < circuitBat.Diode.Is self ->
  0 < circuitBat.Diode.Vt self ->
  inputs !! "V_in" = Some V_in ->
  inputs !! "V_out" = Some V_out ->
  result_at "I" (circuitBat.Diode.compute self inputs outputs)
    = Some (circuitBat.Diode.Is self
            * (exp ((V_in - V_out) / circuitBat.Diode.Vt self) - 1))
  /\ (V_in = V_out ->
      result_at "I" (circuitBat.Diode.compute self inputs outputs) = Some 0).
Proof.
  intros _ _ Hin Hout.
  rewrite (circuitBat_Diode_compute_eq _ _ _ _ _ Hin Hout).
  cbn [result_at ret]. rewrite lookup_insert_eq. split; [reflexivity|].
  intros ->. f_equal.
  replace ((V_out - V_out) / circuitBat.Diode.Vt self) with 0
    by (unfold Rdiv; lra).
  rewrite exp_0. lra.
Qed.

Lemma circuit_Diode_compute_eq (self : circuit.Diode.options)
    (inputs outputs : gmap string float) :
  circuit.Diode.compute self inputs outputs
  = (V_in <- getitem inputs "V_in" ;;
     V_out <- getitem inputs "V_out" ;;
     raise (NameError "np")).
Proof.
  unfold circuit.Diode.compute.
  destruct (getitem inputs "V_in") as [e|V_in]; [reflexivity|].
  destruct (getitem inputs "V_out") as [e|V_out]; [reflexivity|].
  cbn [bind].
  rewrite (load_global_unbound _ _ np_unbound_in_circuit). reflexivity.
Qed.

(** C10: the residual computed by [Node.apply_nonlinear], in either script,
    does not depend on the node's own state [V]: two runs on the same
    inputs with different [outputs] vectors return the same result; the
    value left in [residuals['V']] does not depend on what [residuals]
    held before either. *)
Theorem Node_residual_independent_of_V :
  forall (self : circuit.Node.options) (self' : circuitBat.Node.options)
         (inputs outputs1 outputs2 residuals1 residuals2 : gmap string float),
    circuit.Node.apply_nonlinear self inputs outputs1 residuals1
      = circuit.Node.apply_nonlinear self inputs outputs2 residuals1
    /\ circuitBat.Node.apply_nonlinear self' inputs outputs1 residuals1
      = circuitBat.Node.apply_nonlinear self' inputs outputs2 residuals1
    /\ result_at "V" (circuit.Node.apply_nonlinear self inputs outputs1 residuals1)
      = result_at "V" (circuit.Node.apply_nonlinear self inputs outputs2 residuals2)
    /\ result_at "V" (circuitBat.Node.apply_nonlinear self' inputs outputs1 residuals1)
      = result_at "V" (circuitBat.Node.apply_nonlinear self' inputs outputs2 residuals2).
Proof.
  intros self self' inputs outputs1 outputs2 residuals1 residuals2.
  split; [reflexivity|]. split; [reflexivity|].
  rewrite !circuit_Node_apply_nonlinear_eq, !circuitBat_Node_apply_nonlinear_eq.
  split.
  - destruct (read_all inputs (fstr "I_in:" <$> range (circuit.Node.n_in self)))
      as [e|ins]; [reflexivity|].
    destruct (read_all inputs (fstr "I_out:" <$> range (circuit.Node.n_out self)))
      as [e|outs]; [reflexivity|].
    cbn [bind ret result_at]. rewrite !lookup_insert_eq. reflexivity.
  - destruct (read_all inputs (fstr "I_in:" <$> range (circuitBat.Node.n_in self')))
      as [e|ins]; [reflexivity|].
    destruct (read_all inputs (fstr "I_out:" <$> range (circuitBat.Node.n_out self')))
      as [e|outs]; [reflexivity|].
    cbn [bind ret result_at]. rewrite !lookup_insert_eq. reflexivity.
Qed.

(** C1: the node residuals of the two scripts are not equivalent. On some
    inputs vector with a nonzero outgoing current, [Node.apply_nonlinear] of
    [circuit.py] (which adds the outgoing currents) and of [circuitBat.py]
    (which subtracts them) leave different values in [residuals['V']]; on
    every inputs vector whose outgoing currents are all zero the two
    return the same result. *)
Theorem Node_residual_sign_conventions_differ :
  (exists (n_in n_out : Z) (inputs outputs residuals : gmap string float)
          (i : Z) (x a b : float),
      (0 <= i < n_out)%Z
      /\ inputs !! fstr "I_out:" i = Some x
      /\ x <> 0
      /\ result_at "V"
           (circuit.Node.apply_nonlinear
              {| circuit.Node.n_in := n_in; circuit.Node.n_out := n_out |}
              inputs outputs residuals) = Some a
      /\ result_at "V"
           (circuitBat.Node.apply_nonlinear
              {| circuitBat.Node.n_in := n_in; circuitBat.Node.n_out := n_out |}
              inputs outputs residuals) = Some b
      /\ a <> b)
  /\ (forall (n_in n_out : Z) (inputs outputs residuals : gmap string float),
      (forall i : Z, (0 <= i < n_out)%Z -> inputs !! fstr "I_out:" i = Some 0) ->
      circuit.Node.apply_nonlinear
        {| circuit.Node.n_in := n_in; circuit.Node.n_out := n_out |}
        inputs outputs residuals
      = circuitBat.Node.apply_nonlinear
          {| circuitBat.Node.n_in := n_in; circuitBat.Node.n_out := n_out |}
          inputs outputs residuals).
Proof.
  split.
  - exists 1%Z, 1%Z, {[ "I_in:0" := 0; "I_out:0" := 1 ]}, ∅, ∅, 0%Z, 1.
    exists (0 + 0 + 1), (0 + 0 - 1).
    split; [lia|]. split; [reflexivity|]. split; [lra|].
    split; [reflexivity|]. split; [reflexivity|]. lra.
  - intros n_in n_out inputs outputs residuals Hzero.
    rewrite circuit_Node_apply_nonlinear_eq, circuitBat_Node_apply_nonlinear_eq.
    cbn [circuit.Node.n_in circuit.Node.n_out
         circuitBat.Node.n_in circuitBat.Node.n_out].
    destruct (read_all inputs (fstr "I_in:" <$> range n_in)) as [e|ins];
      [reflexivity|].
    rewrite (read_all_constant inputs (fstr "I_out:" <$> range n_out) 0).
    + cbn [bind ret].
      rewrite fold_left_plus_zeros, fold_left_minus_zeros. reflexivity.
    + intros k Hk. apply list_elem_of_fmap in Hk as (i & -> & Hi).
      apply Hzero, elem_of_range, Hi.
Qed.

Lemma Node_residual_sign_conventions_differ_witness :
  (forall i : Z, (0 <= i < 2)%Z ->
     ({[ "I_in:0" := 0.1; "I_out:0" := 0; "I_out:1" := 0 ]} : gmap string float)
       !! fstr "I_out:" i = Some 0)
  /\ circuit.Node.apply_nonlinear
       {| circuit.Node.n_in := 1; circuit.Node.n_out := 2 |}
       {[ "I_in:0" := 0.1; "I_out:0" := 0; "I_out:1" := 0 ]} ∅ ∅
     = circuitBat.Node.apply_nonlinear
         {| circuitBat.Node.n_in := 1; circuitBat.Node.n_out := 2 |}
         {[ "I_in:0" := 0.1; "I_out:0" := 0; "I_out:1" := 0 ]} ∅ ∅.
Proof.
  assert (H : forall i : Z, (0 <= i < 2)%Z ->
     ({[ "I_in:0" := 0.1; "I_out:0" := 0; "I_out:1" := 0 ]} : gmap string float)
       !! fstr "I_out:" i = Some 0).
  { intros i Hi.
    assert (Hc : i = 0%Z \/ i = 1%Z) by lia.
    destruct Hc as [-> | ->]; reflexivity. }
  split; [exact H|].
  exact (proj2 Node_residual_sign_conventions_differ 1%Z 2%Z _ ∅ ∅ H).
Defined.

(** C2: for voltages [V_in], [V_out] at the terminals and a resistance
    [R > 0], [Resistor.compute] (the same in both scripts) stores
    [I = (V_in - V_out) / R]; with [R = 100] and [V_in - V_out = 5] the
    current is [0.05]. *)
Theorem Resistor_compute_ohm :
  forall (r V_in V_out : float) (inputs outputs : gmap string float),
    0 < r ->
    inputs !! "V_in" = Some V_in ->
    inputs !! "V_out" = Some V_out ->
    circuit.Resistor.compute {| circuit.Resistor.R := r |} inputs outputs
      = ret (<["I" := (V_in - V_out) / r]> outputs)
    /\ circuitBat.Resistor.compute {| circuitBat.Resistor.R := r |} inputs outputs
      = ret (<["I" := (V_in - V_out) / r]> outputs)
    /\ (r = 100 -> V_in - V_out = 5 ->
        result_at "I"
          (circuit.Resistor.compute {| circuit.Resistor.R := r |} inputs outputs)
          = Some 0.05
        /\ result_at "I"
             (circuitBat.Resistor.compute {| circuitBat.Resistor.R := r |} inputs outputs)
           = Some 0.05).
Proof.
  intros r V_in V_out inputs outputs _ Hin Hout.
  rewrite (circuit_Resistor_compute_eq _ _ _ _ _ Hin Hout).
  rewrite (circuitBat_Resistor_compute_eq _ _ _ _ _ Hin Hout).
  cbn [circuit.Resistor.R circuitBat.Resistor.R].
  split; [reflexivity|]. split; [reflexivity|].
  intros -> HdV. cbn [result_at ret]. rewrite lookup_insert_eq, HdV.
  split; f_equal; lra.
Qed.

Lemma Resistor_compute_ohm_witness :
  0 < 100
  /\ result_at "I"
       (circuit.Resistor.compute {| circuit.Resistor.R := 100 |}
          {[ "V_in" := 5; "V_out" := 0 ]} ∅) = Some 0.05.
Proof.
  split; [lra|].
  refine (proj1 (proj2 (proj2
    (Resistor_compute_ohm 100 5 0 {[ "V_in" := 5; "V_out" := 0 ]} ∅ _ _ _)) _ _)).
  - lra.
  - reflexivity.
  - reflexivity.
  - reflexivity.
  - lra.
Defined.

(** The literal test of Ohm's law in binary64: whenever the subtraction
    yields [5.0], dividing by [100.0] yields the double that the literal
    [0.05] denotes. *)
#[warnings="-inexact-float"]
Lemma binary64_Resistor_current_literal (V_in V_out : PrimFloat.float) :
  PrimFloat.sub V_in V_out = 5%float ->
  binary64.Resistor_current 100%float V_in V_out = 0.05%float.
Proof. unfold binary64.Resistor_current. intros ->. reflexivity. Qed.

(** C9: in [circuit.py] no call of [Diode.compute] returns normally. The
    module binds [om] but never [np], so once the two declared inputs have
    been read the evaluation of [np.exp] raises [NameError] for [np],
    whatever the voltages and options are. *)
Theorem circuit_Diode_compute_raises_NameError :
  ("np" ∉ circuit.module_globals)
  /\ (forall (self : circuit.Diode.options) (inputs outputs : gmap string float),
        exists e, circuit.Diode.compute self inputs outputs = raise e)
  /\ (forall (self : circuit.Diode.options) (inputs outputs : gmap string float),
        declared_inputs_present (circuit.Diode.setup self) inputs ->
        circuit.Diode.compute self inputs outputs = raise (NameError "np")).
Proof.
  split; [exact np_unbound_in_circuit|]. split.
  - intros self inputs outputs. rewrite circuit_Diode_compute_eq.
    destruct (getitem inputs "V_in") as [e|V_in]; [exists e; reflexivity|].
    destruct (getitem inputs "V_out") as [e|V_out]; [exists e; reflexivity|].
    exists (NameError "np"). reflexivity.
  - intros self inputs outputs Hdecl. rewrite circuit_Diode_compute_eq.
    destruct (Hdecl "V_in") as [V_in Hin]; [cbn; set_solver|].
    destruct (Hdecl "V_out") as [V_out Hout]; [cbn; set_solver|].
    rewrite (getitem_Some _ _ _ Hin), bind_ret.
    rewrite (getitem_Some _ _ _ Hout), bind_ret.
    reflexivity.
Qed.

Lemma circuit_Diode_compute_raises_NameError_witness :
  declared_inputs_present (circuit.Diode.setup circuit.Diode.default)
    {[ "V_in" := 1; "V_out" := 0 ]}
  /\ circuit.Diode.compute circuit.Diode.default {[ "V_in" := 1; "V_out" := 0 ]} ∅
     = raise (NameError "np").
Proof.
  assert (H : declared_inputs_present (circuit.Diode.setup circuit.Diode.default)
                ({[ "V_in" := 1; "V_out" := 0 ]} : gmap string float)).
  { intros v Hv. cbn in Hv.
    apply elem_of_cons in Hv as [-> | Hv]; [eexists; reflexivity|].
    apply elem_of_cons in Hv as [-> | Hv]; [eexists; reflexivity|].
    inversion Hv. }
  split; [exact H|].
  exact (proj2 (proj2 circuit_Diode_compute_raises_NameError)
           circuit.Diode.default _ ∅ H).
Defined.

(** C3: at [V_in = 1], [V_out = 0] with the default [Is] and [Vt],
    [Diode.compute] of [circuitBat.py] stores the Shockley current
    [Is * (exp ((V_in - V_out) / Vt) - 1)], and stores [0] when the two
    voltages are equal; [Diode.compute] of [circuit.py], whose body is the
    same, stores nothing and raises [NameError] for [np]. *)
Theorem Diode_compute_shockley_only_in_circuitBat :
  result_at "I"
    (circuitBat.Diode.compute circuitBat.Diode.default
       {[ "V_in" := 1; "V_out" := 0 ]} ∅)
    = Some (1e-15 * (exp ((1 - 0) / 0.025875) - 1))
  /\ result_at "I"
       (circuitBat.Diode.compute circuitBat.Diode.default
          {[ "V_in" := 1; "V_out" := 1 ]} ∅) = Some 0
  /\ circuit.Diode.compute circuit.Diode.default {[ "V_in" := 1; "V_out" := 0 ]} ∅
     = raise (NameError "np")
  /\ result_at "I"
       (circuit.Diode.compute circuit.Diode.default
          {[ "V_in" := 1; "V_out" := 0 ]} ∅) = None.
Proof.
  split; [|split; [|split]].
  - apply (circuitBat_Diode_compute_shockley circuitBat.Diode.default
             {[ "V_in" := 1; "V_out" := 0 ]} ∅ 1 0);
      try reflexivity;
      cbv [circuitBat.Diode.Is circuitBat.Diode.Vt circuitBat.Diode.default]; lra.
  - apply (circuitBat_Diode_compute_shockley circuitBat.Diode.default
             {[ "V_in" := 1; "V_out" := 1 ]} ∅ 1 1);
      try reflexivity;
      cbv [circuitBat.Diode.Is circuitBat.Diode.Vt circuitBat.Diode.default]; lra.
  - rewrite circuit_Diode_compute_eq. reflexivity.
  - rewrite circuit_Diode_compute_eq. reflexivity.
Qed.

(** ** Exact derivatives of the component equations *)

Lemma derivable_pt_lim_ext (f g : float -> float) (x l : float) :
  (forall y, f y = g y) -> derivable_pt_lim g x l -> derivable_pt_lim f x l.
Proof.
  intros Heq Hg eps Heps.
  destruct (Hg eps Heps) as [delta Hdelta].
  exists delta. intros h Hh Hlt. rewrite !Heq. apply Hdelta; assumption.
Qed.

Lemma derivable_pt_lim_affine (a b x : float) :
  derivable_pt_lim (fun v => a * v + b) x a.
Proof.
  intros eps Heps. exists (mkposreal 1 Rlt_0_1). intros h Hh _.
  replace ((a * (x + h) + b - (a * x + b)) / h - a) with 0 by (field; exact Hh).
  rewrite Rabs_R0. exact Heps.
Qed.

Lemma derivable_pt_lim_shockley (Is Vt c x : float) :
  derivable_pt_lim (fun v => Is * (exp ((v - c) / Vt) - 1)) x
    (Is * exp ((x - c) / Vt) / Vt).
Proof.
  apply (derivable_pt_lim_ext _
           (mult_real_fct Is
              (minus_fct (comp exp (fun v => / Vt * v + - c / Vt)) (fct_cte 1)))).
  - intros y. unfold mult_real_fct, minus_fct, comp, fct_cte.
    do 3 f_equal. unfold Rdiv. ring.
  - replace (Is * exp ((x - c) / Vt) / Vt)
      with (Is * (exp (/ Vt * x + - c / Vt) * / Vt - 0)).
    + apply derivable_pt_lim_scal, derivable_pt_lim_minus.
      * apply derivable_pt_lim_comp.
        -- apply derivable_pt_lim_affine.
        -- apply derivable_pt_lim_exp.
      * apply derivable_pt_lim_const.
    + replace (/ Vt * x + - c / Vt) with ((x - c) / Vt) by (unfold Rdiv; ring).
      unfold Rdiv. ring.
Qed.

Lemma derivable_pt_lim_shockley_out (Is Vt c x : float) :
  derivable_pt_lim (fun v => Is * (exp ((c - v) / Vt) - 1)) x
    (- (Is * exp ((c - x) / Vt)) / Vt).
Proof.
  apply (derivable_pt_lim_ext _
           (mult_real_fct Is
              (minus_fct (comp exp (fun v => - / Vt * v + c / Vt)) (fct_cte 1)))).
  - intros y. unfold mult_real_fct, minus_fct, comp, fct_cte.
    do 3 f_equal. unfold Rdiv. ring.
  - replace (- (Is * exp ((c - x) / Vt)) / Vt)
      with (Is * (exp (- / Vt * x + c / Vt) * - / Vt - 0)).
    + apply derivable_pt_lim_scal, derivable_pt_lim_minus.
      * apply derivable_pt_lim_comp.
        -- apply derivable_pt_lim_affine.
        -- apply derivable_pt_lim_exp.
      * apply derivable_pt_lim_const.
    + replace (- / Vt * x + c / Vt) with ((c - x) / Vt) by (unfold Rdiv; ring).
      unfold Rdiv. ring.
Qed.

(** C6: for a resistance [R > 0] the partial derivatives that
    [Resistor.setup] of [circuitBat.py] declares are the constants
    [dI/dV_in = 1/R] and [dI/dV_out = -1/R], and at every pair of voltages
    they are the derivatives of the current [Resistor.compute] stores. *)
Theorem Resistor_declared_partials_exact :
  forall (r V_in V_out : float) (outputs : gmap string float),
    0 < r ->
    var_partials (circuitBat.Resistor.setup {| circuitBat.Resistor.R := r |})
      = [("I", "V_in", val (1 / r)); ("I", "V_out", val (-1 / r))]
    /\ derivable_pt_lim
         (fun v => output_I (circuitBat.Resistor.compute
                               {| circuitBat.Resistor.R := r |}
                               {[ "V_in" := v; "V_out" := V_out ]} outputs))
         V_in (1 / r)
    /\ derivable_pt_lim
         (fun v => output_I (circuitBat.Resistor.compute
                               {| circuitBat.Resistor.R := r |}
                               {[ "V_in" := V_in; "V_out" := v ]} outputs))
         V_out (-1 / r).
Proof.
  intros r V_in V_out outputs _. split; [reflexivity|]. split.
  - apply (derivable_pt_lim_ext _ (fun v => 1 / r * v + - V_out / r)).
    + intros v.
      rewrite (circuitBat_Resistor_compute_eq _ _ _ v V_out) by reflexivity.
      unfold output_I. cbn [result_at ret]. rewrite lookup_insert_eq.
      cbn [circuitBat.Resistor.R]. unfold Rdiv. ring.
    + apply derivable_pt_lim_affine.
  - apply (derivable_pt_lim_ext _ (fun v => -1 / r * v + V_in / r)).
    + intros v.
      rewrite (circuitBat_Resistor_compute_eq _ _ _ V_in v) by reflexivity.
      unfold output_I. cbn [result_at ret]. rewrite lookup_insert_eq.
      cbn [circuitBat.Resistor.R]. unfold Rdiv. ring.
    + apply derivable_pt_lim_affine.
Qed.

Lemma Resistor_declared_partials_exact_witness :
  0 < 100
  /\ derivable_pt_lim
       (fun v => output_I (circuitBat.Resistor.compute
                             {| circuitBat.Resistor.R := 100 |}
                             {[ "V_in" := v; "V_out" := 0 ]} ∅))
       5 (1 / 100).
Proof.
  split; [lra|].
  refine (proj1 (proj2 (Resistor_declared_partials_exact 100 5 0 ∅ _))).
  lra.
Defined.

Lemma circuitBat_Diode_compute_partials_eq (self : circuitBat.Diode.options)
    (inputs : gmap string float) (J : gmap (string * string) float)
    (V_in V_out : float) :
  inputs !! "V_in" = Some V_in ->
  inputs !! "V_out" = Some V_out ->
  circuitBat.Diode.compute_partials self inputs J
  = ret (<[("I", "V_out") :=
             - (circuitBat.Diode.Is self
                * exp ((V_in - V_out) / circuitBat.Diode.Vt self))
             / circuitBat.Diode.Vt self]>
           (<[("I", "V_in") :=
                circuitBat.Diode.Is self
                * exp ((V_in - V_out) / circuitBat.Diode.Vt self)
                / circuitBat.Diode.Vt self]> J)).
Proof.
  intros Hin Hout. unfold circuitBat.Diode.compute_partials.
  rewrite (getitem_Some _ _ _ Hin), bind_ret.
  rewrite (getitem_Some _ _ _ Hout), bind_ret.
  rewrite (load_global_bound _ _ np_bound_in_circuitBat), bind_ret.
  reflexivity.
Qed.

(** C7: for a thermal voltage [Vt <> 0] and every inputs vector,
    [Diode.compute_partials] of [circuitBat.py] stores
    [J['I','V_in'] = I / Vt] and [J['I','V_out'] = - I / Vt] with
    [I = Is * exp ((V_in - V_out) / Vt)]; the second entry is the negation
    of the first, and the two are the derivatives, in [V_in] and in
    [V_out], of the current [Diode.compute] stores. *)
Theorem Diode_compute_partials_exact :
  forall (self : circuitBat.Diode.options) (inputs : gmap string float)
         (J : gmap (string * string) float) (V_in V_out : float),
    circuitBat.Diode.Vt self <> 0 ->
    inputs !! "V_in" = Some V_in ->
    inputs !! "V_out" = Some V_out ->
    exists (I d_in d_out : float) (J' : gmap (string * string) float),
      I = circuitBat.Diode.Is self * exp ((V_in - V_out) / circuitBat.Diode.Vt self)
      /\ circuitBat.Diode.compute_partials self inputs J = ret J'
      /\ J' !! ("I", "V_in") = Some d_in
      /\ J' !! ("I", "V_out") = Some d_out
      /\ d_in = I / circuitBat.Diode.Vt self
      /\ d_out = - I / circuitBat.Diode.Vt self
      /\ d_out = - d_in
      /\ derivable_pt_lim
           (fun v => output_I (circuitBat.Diode.compute self
                                 (<["V_in" := v]> inputs) ∅))
           V_in d_in
      /\ derivable_pt_lim
           (fun v => output_I (circuitBat.Diode.compute self
                                 (<["V_out" := v]> inputs) ∅))
           V_out d_out.
Proof.
  intros self inputs J V_in V_out _ Hin Hout.
  eexists _, _, _, _. split; [reflexivity|].
  split; [exact (circuitBat_Diode_compute_partials_eq _ _ _ _ _ Hin Hout)|].
  split; [rewrite lookup_insert_ne by discriminate; apply lookup_insert_eq|].
  split; [apply lookup_insert_eq|].
  split; [reflexivity|]. split; [reflexivity|].
  split; [unfold Rdiv; ring|]. split.
  - apply (derivable_pt_lim_ext _
             (fun v => circuitBat.Diode.Is self
                       * (exp ((v - V_out) / circuitBat.Diode.Vt self) - 1))).
    + intros v.
      rewrite (circuitBat_Diode_compute_eq _ _ _ v V_out).
      * unfold output_I. cbn [result_at ret]. rewrite lookup_insert_eq. reflexivity.
      * apply lookup_insert_eq.
      * rewrite lookup_insert_ne by discriminate. exact Hout.
    + apply derivable_pt_lim_shockley.
  - apply (derivable_pt_lim_ext _
             (fun v => circuitBat.Diode.Is self
                       * (exp ((V_in - v) / circuitBat.Diode.Vt self) - 1))).
    + intros v.
      rewrite (circuitBat_Diode_compute_eq _ _ _ V_in v).
      * unfold output_I. cbn [result_at ret]. rewrite lookup_insert_eq. reflexivity.
      * rewrite lookup_insert_ne by discriminate. exact Hin.
      * apply lookup_insert_eq.
    + apply derivable_pt_lim_shockley_out.
Qed.

Lemma Diode_compute_partials_exact_witness :
  circuitBat.Diode.Vt circuitBat.Diode.default <> 0
  /\ exists (I d_in d_out : float) (J' : gmap (string * string) float),
      I = 1e-15 * exp ((1 - 0) / 0.025875)
      /\ circuitBat.Diode.compute_partials circuitBat.Diode.default
           {[ "V_in" := 1; "V_out" := 0 ]} ∅ = ret J'
      /\ J' !! ("I", "V_in") = Some d_in
      /\ J' !! ("I", "V_out") = Some d_out
      /\ d_in = I / 0.025875
      /\ d_out = - I / 0.025875
      /\ d_out = - d_in
      /\ derivable_pt_lim
           (fun v => output_I (circuitBat.Diode.compute circuitBat.Diode.default
                                 (<["V_in" := v]> {[ "V_in" := 1; "V_out" := 0 ]}) ∅))
           1 d_in
      /\ derivable_pt_lim
           (fun v => output_I (circuitBat.Diode.compute circuitBat.Diode.default
                                 (<["V_out" := v]> {[ "V_in" := 1; "V_out" := 0 ]}) ∅))
           0 d_out.
Proof.
  assert (HVt : circuitBat.Diode.Vt circuitBat.Diode.default <> 0).
  { cbv [circuitBat.Diode.Vt circuitBat.Diode.default]. lra. }
  split; [exact HVt|].
  exact (Diode_compute_partials_exact circuitBat.Diode.default
           {[ "V_in" := 1; "V_out" := 0 ]} ∅ 1 0 HVt eq_refl eq_refl).
Defined.

(** ** The assembled models *)

Lemma gather_lookup (store : gmap string float) (src_of : string -> option string)
    (declared : list string) (v : string) :
  om.gather store src_of declared !! v
  = if decide (v ∈ declared)
    then match src_of v with
         | Some src => store !! src
         | None => None
         end
    else None.
Proof.
  unfold om.gather.
  set (f := fun v0 : string =>
              match src_of v0 with
              | Some src => match store !! src with
                            | Some x => Some (v0, x)
                            | None => None
                            end
              | None => None
              end).
  induction declared as [|d ds IH]; [reflexivity|].
  change (omap f (d :: ds))
    with (match f d with Some y => y :: omap f ds | None => omap f ds end).
  destruct (decide (v = d)) as [Heq|Hne].
  - subst d. rewrite decide_True by left. unfold f at 1.
    destruct (src_of v) as [src|].
    + destruct (store !! src) as [x|].
      * rewrite list_to_map_cons. apply lookup_insert_eq.
      * rewrite IH. destruct (decide (v ∈ ds)); reflexivity.
    + rewrite IH. destruct (decide (v ∈ ds)); reflexivity.
  - assert (Hmem : forall o : option float,
              (if decide (v ∈ d :: ds) then o else None)
              = (if decide (v ∈ ds) then o else None)).
    { intros o. destruct (decide (v ∈ ds)) as [Hin|Hnin].
      - rewrite decide_True by (right; exact Hin). reflexivity.
      - rewrite decide_False; [reflexivity|].
        intros Hin. apply elem_of_cons in Hin as [?|?]; contradiction. }
    rewrite Hmem, <- IH.
    destruct (f d) as [[k x]|] eqn:Hfd; [|reflexivity].
    assert (k = d) as ->.
    { unfold f in Hfd. destruct (src_of d) as [src|]; [|discriminate].
      destruct (store !! src); [|discriminate]. congruence. }
    rewrite list_to_map_cons. apply lookup_insert_ne. congruence.
Qed.

(** What the inputs of node [n1] and of the resistors are connected to. *)
Lemma circuit_n1_inputs (store : gmap string float) :
  let inputs := circuit.circuit_inputs store "n1" (circuit.Node.setup circuit.Circuit.n1) in
  inputs !! "I_in:0" = store !! "source.I"
  /\ inputs !! "I_out:0" = store !! "circuit.R1.I"
  /\ inputs !! "I_out:1" = store !! "circuit.R2.I".
Proof.
  cbv zeta. unfold circuit.circuit_inputs. rewrite !gather_lookup.
  repeat split; reflexivity.
Qed.

Lemma circuitBat_n1_inputs (store : gmap string float) :
  let inputs :=
    circuitBat.circuit_inputs store "n1" (circuitBat.Node.setup circuitBat.Circuit.n1) in
  inputs !! "I_in:0" = store !! "batt_balance.I"
  /\ inputs !! "I_out:0" = store !! "circuit.R1.I"
  /\ inputs !! "I_out:1" = store !! "circuit.R2.I".
Proof.
  cbv zeta. unfold circuitBat.circuit_inputs. rewrite !gather_lookup.
  repeat split; reflexivity.
Qed.

(** The residual of node [n1] in each script, on a store that holds the
    three currents. *)
Lemma circuit_n1_residual (store residuals : gmap string float) (i_in i1 i2 : float) :
  store !! "source.I" = Some i_in ->
  store !! "circuit.R1.I" = Some i1 ->
  store !! "circuit.R2.I" = Some i2 ->
  circuit.n1_apply_nonlinear store residuals
  = ret (<["V" := 0 + i_in + i1 + i2]> residuals).
Proof.
  intros Hin H1 H2. unfold circuit.n1_apply_nonlinear.
  rewrite circuit_Node_apply_nonlinear_eq.
  destruct (circuit_n1_inputs store) as (Ein & E1 & E2).
  change (fstr "I_in:" <$> range (circuit.Node.n_in circuit.Circuit.n1))
    with ["I_in:0"].
  change (fstr "I_out:" <$> range (circuit.Node.n_out circuit.Circuit.n1))
    with ["I_out:0"; "I_out:1"].
  cbn [read_all].
  rewrite (getitem_Some _ _ i_in) by (rewrite Ein; exact Hin).
  rewrite (getitem_Some _ _ i1) by (rewrite E1; exact H1).
  rewrite (getitem_Some _ _ i2) by (rewrite E2; exact H2).
  reflexivity.
Qed.

Lemma circuitBat_n1_residual (store residuals : gmap string float) (i_in i1 i2 : float) :
  store !! "batt_balance.I" = Some i_in ->
  store !! "circuit.R1.I" = Some i1 ->
  store !! "circuit.R2.I" = Some i2 ->
  circuitBat.n1_apply_nonlinear store residuals
  = ret (<["V" := 0 + i_in - i1 - i2]> residuals).
Proof.
  intros Hin H1 H2. unfold circuitBat.n1_apply_nonlinear.
  rewrite circuitBat_Node_apply_nonlinear_eq.
  destruct (circuitBat_n1_inputs store) as (Ein & E1 & E2).
  change (fstr "I_in:" <$> range (circuitBat.Node.n_in circuitBat.Circuit.n1))
    with ["I_in:0"].
  change (fstr "I_out:" <$> range (circuitBat.Node.n_out circuitBat.Circuit.n1))
    with ["I_out:0"; "I_out:1"].
  cbn [read_all].
  rewrite (getitem_Some _ _ i_in) by (rewrite Ein; exact Hin).
  rewrite (getitem_Some _ _ i1) by (rewrite E1; exact H1).
  rewrite (getitem_Some _ _ i2) by (rewrite E2; exact H2).
  reflexivity.
Qed.

(** With the subtraction of [circuitBat.py], a vanishing residual at node
    [n1] is Kirchhoff's current law: what flows in flows out. *)
Lemma circuitBat_n1_kirchhoff (store residuals : gmap string float) (i_in i1 i2 : float) :
  store !! "batt_balance.I" = Some i_in ->
  store !! "circuit.R1.I" = Some i1 ->
  store !! "circuit.R2.I" = Some i2 ->
  result_at "V" (circuitBat.n1_apply_nonlinear store residuals) = Some 0 ->
  i1 + i2 = i_in.
Proof.
  intros Hin H1 H2.
  rewrite (circuitBat_n1_residual _ _ _ _ _ Hin H1 H2).
  cbn [result_at ret]. rewrite lookup_insert_eq. intros [= H]. lra.
Qed.

(** With the addition of [circuit.py], a vanishing residual at node [n1]
    makes the outgoing currents sum to the opposite of the source current. *)
Lemma circuit_n1_residual_zero (store residuals : gmap string float) (i_in i1 i2 : float) :
  store !! "source.I" = Some i_in ->
  store !! "circuit.R1.I" = Some i1 ->
  store !! "circuit.R2.I" = Some i2 ->
  result_at "V" (circuit.n1_apply_nonlinear store residuals) = Some 0 ->
  i1 + i2 = - i_in.
Proof.
  intros Hin H1 H2.
  rewrite (circuit_n1_residual _ _ _ _ _ Hin H1 H2).
  cbn [result_at ret]. rewrite lookup_insert_eq. intros [= H]. lra.
Qed.

(** C4: in the model of [circuit.py], with [source.I = 0.1] and
    [ground.V = 0], the store with [n1.V = -5] and [n2.V = 495] holds the
    currents the two resistors compute there ([-0.05] each); the residual
    [Node.apply_nonlinear] leaves for node [n1] is zero, yet
    [R1.I + R2.I = -0.1], at distance [0.2] from the [0.1] that flows in. *)
Theorem circuit_n1_zero_residual_breaks_kirchhoff :
  circuit.indeps_set reversed_currents_store
  /\ (exists i1 i2 : float,
        result_at "I" (circuit.R1_compute reversed_currents_store ∅) = Some i1
        /\ result_at "I" (circuit.R2_compute reversed_currents_store ∅) = Some i2
        /\ reversed_currents_store !! "circuit.R1.I" = Some i1
        /\ reversed_currents_store !! "circuit.R2.I" = Some i2
        /\ i1 + i2 = - 0.1
        /\ Rabs (i1 + i2 - 0.1) = 0.2)
  /\ result_at "V" (circuit.n1_apply_nonlinear reversed_currents_store ∅) = Some 0.
Proof.
  split; [split; reflexivity|]. split.
  - exists (-0.05), (-0.05).
    assert (H1 : circuit.circuit_inputs reversed_currents_store "R1"
                   (circuit.Resistor.setup circuit.Circuit.R1) !! "V_in" = Some (-5))
      by (unfold circuit.circuit_inputs; rewrite gather_lookup; reflexivity).
    assert (H2 : circuit.circuit_inputs reversed_currents_store "R1"
                   (circuit.Resistor.setup circuit.Circuit.R1) !! "V_out" = Some 0)
      by (unfold circuit.circuit_inputs; rewrite gather_lookup; reflexivity).
    assert (H3 : circuit.circuit_inputs reversed_currents_store "R2"
                   (circuit.Resistor.setup circuit.Circuit.R2) !! "V_in" = Some (-5))
      by (unfold circuit.circuit_inputs; rewrite gather_lookup; reflexivity).
    assert (H4 : circuit.circuit_inputs reversed_currents_store "R2"
                   (circuit.Resistor.setup circuit.Circuit.R2) !! "V_out" = Some 495)
      by (unfold circuit.circuit_inputs; rewrite gather_lookup; reflexivity).
    unfold circuit.R1_compute, circuit.R2_compute.
    rewrite (circuit_Resistor_compute_eq _ _ _ _ _ H1 H2).
    rewrite (circuit_Resistor_compute_eq _ _ _ _ _ H3 H4).
    cbn [result_at ret]. rewrite !lookup_insert_eq.
    cbv [circuit.Resistor.R circuit.Circuit.R1 circuit.Circuit.R2].
    split; [f_equal; lra|]. split; [f_equal; lra|].
    split; [reflexivity|]. split; [reflexivity|]. split; [lra|].
    rewrite Rabs_left by lra. lra.
  - rewrite (circuit_n1_residual reversed_currents_store ∅ 0.1 (-0.05) (-0.05))
      by reflexivity.
    cbn [result_at ret]. rewrite lookup_insert_eq. f_equal. lra.
Qed.

(** ** The battery balance of [circuitBat.py] *)

Lemma circuitBat_batt_deltaV_inputs (store : gmap string float) :
  let inputs :=
    circuitBat.top_inputs store "batt_deltaV" (om.ExecComp_setup circuitBat.batt_deltaV) in
  inputs !! "V1" = store !! "circuit.n1.V"
  /\ inputs !! "V2" = store !! "ground.V".
Proof.
  cbv zeta. unfold circuitBat.top_inputs. rewrite !gather_lookup.
  split; reflexivity.
Qed.

Lemma circuitBat_batt_balance_inputs (store : gmap string float) :
  let inputs :=
    circuitBat.top_inputs store "batt_balance" (om.BalanceComp_setup "I") in
  inputs !! "lhs:I" = store !! "batt_deltaV.dV"
  /\ inputs !! "rhs:I" = store !! "batt.V".
Proof.
  cbv zeta. unfold circuitBat.top_inputs. rewrite !gather_lookup.
  split; reflexivity.
Qed.

(** What [batt_deltaV] computes: [dV = V1 - V2 = circuit.n1.V - ground.V]. *)
Lemma circuitBat_batt_deltaV_value (store : gmap string float) (dV : float) :
  result_at "dV" (circuitBat.batt_deltaV_compute store ∅) = Some dV ->
  exists v1 vg : float,
    store !! "circuit.n1.V" = Some v1
    /\ store !! "ground.V" = Some vg
    /\ dV = v1 - vg.
Proof.
  unfold circuitBat.batt_deltaV_compute, om.ExecComp_compute.
  destruct (circuitBat_batt_deltaV_inputs store) as (E1 & E2).
  cbn [om.ec_rhs om.ec_out circuitBat.batt_deltaV om.eval].
  unfold getitem. rewrite E1, E2.
  destruct (store !! "circuit.n1.V") as [v1|]; [|discriminate].
  destruct (store !! "ground.V") as [vg|]; [|discriminate].
  cbn [bind ret result_at]. rewrite lookup_insert_eq.
  intros [= <-]. exists v1, vg. repeat split; reflexivity.
Qed.

(** C5: in the model of [circuitBat.py], take a store in which [batt.V]
    holds the battery voltage 1.5 and [batt_deltaV.dV] holds what
    [batt_deltaV] computes, whatever the ground voltage is. Whenever the
    residual of [batt_balance] is defined, it equals
    [(circuit.n1.V - ground.V - 1.5)] times the positive normalisation
    factor; so when it is zero, [circuit.n1.V - ground.V = 1.5], within
    every tolerance. *)
Theorem circuitBat_balance_fixes_battery_voltage :
  forall (normalization : float -> float) (store residuals : gmap string float)
         (r : float),
    (forall rhs, 0 < normalization rhs) ->
    store !! "batt.V" = Some 1.5 ->
    circuitBat.batt_deltaV_computed store ->
    result_at "I" (circuitBat.batt_balance_apply_nonlinear normalization store residuals)
      = Some r ->
    exists v1 vg : float,
      store !! "circuit.n1.V" = Some v1
      /\ store !! "ground.V" = Some vg
      /\ r = (v1 - vg - 1.5) * normalization 1.5
      /\ (r = 0 ->
          v1 - vg = 1.5 /\ forall tol, 0 <= tol -> Rabs (v1 - vg - 1.5) <= tol).
Proof.
  intros normalization store residuals r Hpos Hbatt (dV & Hcomp & HdV).
  destruct (circuitBat_batt_deltaV_value store dV Hcomp) as (v1 & vg & Hv1 & Hvg & ->).
  unfold circuitBat.batt_balance_apply_nonlinear, om.BalanceComp_apply_nonlinear.
  destruct (circuitBat_batt_balance_inputs store) as (El & Er).
  change ("lhs:" +:+ "I") with "lhs:I". change ("rhs:" +:+ "I") with "rhs:I".
  rewrite (getitem_Some _ _ (v1 - vg)) by (rewrite El; exact HdV).
  rewrite (getitem_Some _ _ 1.5) by (rewrite Er; exact Hbatt).
  cbn [bind ret result_at]. rewrite lookup_insert_eq. intros [= <-].
  exists v1, vg. split; [exact Hv1|]. split; [exact Hvg|]. split; [reflexivity|].
  intros Hzero. specialize (Hpos 1.5).
  assert (Heq : v1 - vg - 1.5 = 0).
  { destruct (Rmult_integral _ _ Hzero) as [H|H]; [exact H|lra]. }
  split; [lra|]. intros tol Htol. rewrite Heq, Rabs_R0. exact Htol.
Qed.

Lemma circuitBat_balance_fixes_battery_voltage_witness :
  (forall rhs : float, 0 < (fun _ : float => 1) rhs)
  /\ battery_store !! "batt.V" = Some 1.5
  /\ circuitBat.batt_deltaV_computed battery_store
  /\ result_at "I"
       (circuitBat.batt_balance_apply_nonlinear (fun _ => 1) battery_store ∅)
     = Some ((2 - 0.5 - 1.5) * 1)
  /\ exists v1 vg : float,
      battery_store !! "circuit.n1.V" = Some v1
      /\ battery_store !! "ground.V" = Some vg
      /\ (2 - 0.5 - 1.5) * 1 = (v1 - vg - 1.5) * 1
      /\ ((2 - 0.5 - 1.5) * 1 = 0 ->
          v1 - vg = 1.5 /\ forall tol, 0 <= tol -> Rabs (v1 - vg - 1.5) <= tol).
Proof.
  assert (Hpos : forall rhs : float, 0 < (fun _ : float => 1) rhs)
    by (intros _; lra).
  assert (Hbatt : battery_store !! "batt.V" = Some 1.5) by reflexivity.
  assert (Hcomp : circuitBat.batt_deltaV_computed battery_store).
  { exists (2 - 0.5). split; [|reflexivity].
    unfold circuitBat.batt_deltaV_compute, om.ExecComp_compute.
    destruct (circuitBat_batt_deltaV_inputs battery_store) as (E1 & E2).
    cbn [om.ec_rhs om.ec_out circuitBat.batt_deltaV om.eval].
    rewrite (getitem_Some _ _ 2) by (rewrite E1; reflexivity).
    rewrite (getitem_Some _ _ 0.5) by (rewrite E2; reflexivity).
    cbn [bind ret result_at]. apply lookup_insert_eq. }
  assert (Hres : result_at "I"
       (circuitBat.batt_balance_apply_nonlinear (fun _ => 1) battery_store ∅)
     = Some ((2 - 0.5 - 1.5) * 1)).
  { unfold circuitBat.batt_balance_apply_nonlinear, om.BalanceComp_apply_nonlinear.
    destruct (circuitBat_batt_balance_inputs battery_store) as (El & Er).
    change ("lhs:" +:+ "I") with "lhs:I". change ("rhs:" +:+ "I") with "rhs:I".
    rewrite (getitem_Some _ _ (2 - 0.5)) by (rewrite El; reflexivity).
    rewrite (getitem_Some _ _ 1.5) by (rewrite Er; reflexivity).
    cbn [bind ret result_at]. apply lookup_insert_eq. }
  split; [exact Hpos|]. split; [exact Hbatt|]. split; [exact Hcomp|].
  split; [exact Hres|].
  exact (circuitBat_balance_fixes_battery_voltage (fun _ => 1) battery_store ∅
           _ Hpos Hbatt Hcomp Hres).
Defined.

(** ** The wiring of variant A *)

(** Counterexample to C8 as stated: [R1.V_out] is promoted to [Vg], not
    connected to [n2.V]. At the script's initial guesses [R1] reads [0] (the
    ground voltage) at [V_out] while node 2 is at [1], and its current is
    [(10 - 0) / 100], not [(10 - 1) / 100]. *)
Lemma variant_A_R1_is_not_wired_to_node2 :
  (variant_A_wiring_as_stated -> False)
  /\ om.source_of circuit.Circuit.setup "R1" "V_out" = Some (om.GroupInput "Vg")
  /\ circuit.circuit_inputs initial_store "R1"
       (circuit.Resistor.setup circuit.Circuit.R1) !! "V_out" = Some 0
  /\ initial_store !! "circuit.n2.V" = Some 1
  /\ result_at "I" (circuit.R1_compute initial_store ∅) = Some ((10 - 0) / 100)
  /\ (10 - 0) / 100 <> (10 - 1) / 100.
Proof.
  assert (Hout : circuit.circuit_inputs initial_store "R1"
                   (circuit.Resistor.setup circuit.Circuit.R1) !! "V_out" = Some 0)
    by (unfold circuit.circuit_inputs; rewrite gather_lookup; reflexivity).
  assert (Hin : circuit.circuit_inputs initial_store "R1"
                  (circuit.Resistor.setup circuit.Circuit.R1) !! "V_in" = Some 10)
    by (unfold circuit.circuit_inputs; rewrite gather_lookup; reflexivity).
  split.
  - intros (_ & _ & H & _). vm_compute in H. discriminate H.
  - split; [reflexivity|]. split; [exact Hout|]. split; [reflexivity|]. split.
    + unfold circuit.R1_compute.
      rewrite (circuit_Resistor_compute_eq _ _ _ _ _ Hin Hout).
      cbn [result_at ret]. apply lookup_insert_eq.
    + lra.
Qed.

(** Every input of the two models is connected: [gather] leaves no
    declared input out for want of a source. *)
Lemma circuit_inputs_all_connected :
  Forall (fun s =>
    Forall (fun v =>
      is_Some (om.resolve circuit.model "circuit" circuit.Circuit.setup (om.name s) v))
      (var_inputs (om.vars s)))
    (om.subsystems circuit.Circuit.setup).
Proof. repeat (constructor; try (eexists; vm_compute; reflexivity)). Qed.

Lemma circuitBat_inputs_all_connected :
  Forall (fun s =>
    Forall (fun v =>
      is_Some (om.resolve circuitBat.model "circuit" circuitBat.Circuit.setup
                 (om.name s) v))
      (var_inputs (om.vars s)))
    (om.subsystems circuitBat.Circuit.setup)
  /\ Forall (fun sub =>
       Forall (fun v => is_Some (om.resolve_top circuitBat.model sub.1 v))
         (var_inputs sub.2))
       [ ("batt_balance", om.BalanceComp_setup "I");
         ("batt_deltaV", om.ExecComp_setup circuitBat.batt_deltaV) ].
Proof. split; repeat (constructor; try (eexists; vm_compute; reflexivity)). Qed.

(** C8, amended: in the wiring of [Circuit.setup], both resistors take the
    voltage of node 1 as [V_in]; [R2] and the diode meet at node 2 ([R2.V_out]
    and [D1.V_in] are the voltage of node 2), whereas [R1.V_out] and
    [D1.V_out] are the promoted input [Vg]; the currents of [R1] and [R2] are
    the two outflow ports of node 1, the current of [R2] is the inflow port
    of node 2 and the current of the diode its outflow port. In the model,
    [Vg] is the ground voltage and the inflow port of node 1 the source
    current, so that in every store the components read exactly these
    values. *)
Theorem variant_A_wiring :
  (om.source_of circuit.Circuit.setup "R1" "V_in" = Some (om.Output "n1.V")
   /\ om.source_of circuit.Circuit.setup "R2" "V_in" = Some (om.Output "n1.V")
   /\ om.source_of circuit.Circuit.setup "R2" "V_out" = Some (om.Output "n2.V")
   /\ om.source_of circuit.Circuit.setup "D1" "V_in" = Some (om.Output "n2.V")
   /\ om.source_of circuit.Circuit.setup "R1" "V_out" = Some (om.GroupInput "Vg")
   /\ om.source_of circuit.Circuit.setup "D1" "V_out" = Some (om.GroupInput "Vg")
   /\ om.source_of circuit.Circuit.setup "n1" "I_out:0" = Some (om.Output "R1.I")
   /\ om.source_of circuit.Circuit.setup "n1" "I_out:1" = Some (om.Output "R2.I")
   /\ om.source_of circuit.Circuit.setup "n2" "I_in:0" = Some (om.Output "R2.I")
   /\ om.source_of circuit.Circuit.setup "n2" "I_out:0" = Some (om.Output "D1.I")
   /\ om.source_of circuit.Circuit.setup "n1" "I_in:0" = Some (om.GroupInput "I_in")
   /\ om.source_of circuit.model "circuit" "Vg" = Some (om.Output "ground.V")
   /\ om.source_of circuit.model "circuit" "I_in" = Some (om.Output "source.I"))
  /\ (forall store : gmap string float,
        let R1 := circuit.circuit_inputs store "R1"
                    (circuit.Resistor.setup circuit.Circuit.R1) in
        let R2 := circuit.circuit_inputs store "R2"
                    (circuit.Resistor.setup circuit.Circuit.R2) in
        let D1 := circuit.circuit_inputs store "D1"
                    (circuit.Diode.setup circuit.Circuit.D1) in
        let n1 := circuit.circuit_inputs store "n1"
                    (circuit.Node.setup circuit.Circuit.n1) in
        let n2 := circuit.circuit_inputs store "n2"
                    (circuit.Node.setup circuit.Circuit.n2) in
        R1 !! "V_in" = store !! "circuit.n1.V"
        /\ R2 !! "V_in" = store !! "circuit.n1.V"
        /\ R2 !! "V_out" = store !! "circuit.n2.V"
        /\ D1 !! "V_in" = store !! "circuit.n2.V"
        /\ R1 !! "V_out" = store !! "ground.V"
        /\ D1 !! "V_out" = store !! "ground.V"
        /\ n1 !! "I_in:0" = store !! "source.I"
        /\ n1 !! "I_out:0" = store !! "circuit.R1.I"
        /\ n1 !! "I_out:1" = store !! "circuit.R2.I"
        /\ n2 !! "I_in:0" = store !! "circuit.R2.I"
        /\ n2 !! "I_out:0" = store !! "circuit.D1.I").
Proof.
  split.
  - repeat (split; [vm_compute; reflexivity|]).
    vm_compute; reflexivity.
  - intros store. cbv zeta. unfold circuit.circuit_inputs.
    rewrite !gather_lookup. repeat split; reflexivity.
Qed.

(** * Further properties of the components *)

(** ** Reading a list of ports *)

Lemma read_all_present (inputs : gmap string float) (keys : list string) :
  (forall k, k ∈ keys -> is_Some (inputs !! k)) ->
  read_all inputs keys = ret ((fun k => default 0 (inputs !! k)) <$> keys).
Proof.
  induction keys as [|k ks IH]; intros H; [reflexivity|].
  rewrite fmap_cons. cbn [read_all].
  destruct (H k) as [x Hx]; [left|].
  rewrite (getitem_Some _ _ _ Hx), bind_ret, Hx.
  rewrite IH by (intros k' Hk'; apply H; right; exact Hk').
  reflexivity.
Qed.

Lemma read_all_returns (inputs : gmap string float) (keys : list string)
    (xs : list float) :
  read_all inputs keys = ret xs -> forall k, k ∈ keys -> is_Some (inputs !! k).
Proof.
  revert xs. induction keys as [|k ks IH]; intros xs H k' Hk'.
  - inversion Hk'.
  - cbn [read_all] in H. unfold getitem in H.
    destruct (inputs !! k) as [x|] eqn:Hx; [|discriminate H].
    rewrite bind_ret in H.
    destruct (read_all inputs ks) as [e|ys] eqn:Hys; [discriminate H|].
    apply elem_of_cons in Hk' as [-> | Hk'].
    + rewrite Hx. eexists; reflexivity.
    + exact (IH ys eq_refl k' Hk').
Qed.

Lemma read_all_raises (inputs : gmap string float) (keys : list string) (e : exn) :
  read_all inputs keys = raise e ->
  exists k, e = KeyError k /\ k ∈ keys /\ inputs !! k = None.
Proof.
  induction keys as [|k ks IH]; intros H.
  - discriminate H.
  - cbn [read_all] in H. unfold getitem in H.
    destruct (inputs !! k) as [x|] eqn:Hx.
    + rewrite bind_ret in H.
      destruct (read_all inputs ks) as [e'|ys] eqn:Hys; [|discriminate H].
      injection H as <-.
      destruct (IH eq_refl) as (k' & -> & Hk' & Hnone).
      exists k'. split; [reflexivity|]. split; [right; exact Hk'|exact Hnone].
    + injection H as <-. exists k.
      split; [reflexivity|]. split; [left|exact Hx].
Qed.

Lemma port_values_eq (inputs : gmap string float) (prefix : string) (n : Z) :
  (fun k => default 0 (inputs !! k)) <$> (fstr prefix <$> range n)
  = port_values inputs prefix n.
Proof. unfold port_values. rewrite <- list_fmap_compose. reflexivity. Qed.

Lemma elem_of_Node_inputs (n_in n_out : Z) (k : string) :
  k ∈ (fstr "I_in:" <$> range n_in) ++ (fstr "I_out:" <$> range n_out)
  <-> k ∈ (fstr "I_in:" <$> range n_in) \/ k ∈ (fstr "I_out:" <$> range n_out).
Proof. apply elem_of_app. Qed.

(** The outcome of the two loops, for either sign of the second one. *)
Lemma node_loops_outcome (op : float -> float -> float)
    (inputs residuals : gmap string float) (ins_keys outs_keys : list string) :
  let run :=
    (ins <- read_all inputs ins_keys ;;
     outs <- read_all inputs outs_keys ;;
     ret (<["V" := fold_left op outs (fold_left Rplus ins 0)]> residuals)) in
  ((forall k, k ∈ ins_keys ++ outs_keys -> is_Some (inputs !! k))
   <-> exists r, run = ret r)
  /\ (forall e, run = raise e ->
        exists k, e = KeyError k /\ k ∈ ins_keys ++ outs_keys /\ inputs !! k = None).
Proof.
  cbv zeta. split; [split|].
  - intros H.
    rewrite (read_all_present inputs ins_keys)
      by (intros k Hk; apply H, elem_of_app; left; exact Hk).
    rewrite (read_all_present inputs outs_keys)
      by (intros k Hk; apply H, elem_of_app; right; exact Hk).
    eexists. reflexivity.
  - intros [r Hr] k Hk.
    destruct (read_all inputs ins_keys) as [e|ins] eqn:Hins; [discriminate Hr|].
    destruct (read_all inputs outs_keys) as [e|outs] eqn:Houts; [discriminate Hr|].
    apply elem_of_app in Hk as [Hk|Hk].
    + exact (read_all_returns _ _ _ Hins k Hk).
    + exact (read_all_returns _ _ _ Houts k Hk).
  - intros e He.
    destruct (read_all inputs ins_keys) as [e'|ins] eqn:Hins.
    + injection He as <-.
      destruct (read_all_raises _ _ _ Hins) as (k & -> & Hk & Hnone).
      exists k. split; [reflexivity|]. split; [|exact Hnone].
      apply elem_of_app. left. exact Hk.
    + destruct (read_all inputs outs_keys) as [e'|outs] eqn:Houts;
        [|discriminate He].
      injection He as <-.
      destruct (read_all_raises _ _ _ Houts) as (k & -> & Hk & Hnone).
      exists k. split; [reflexivity|]. split; [|exact Hnone].
      apply elem_of_app. right. exact Hk.
Qed.

(** ** [Node] *)

(** X1: on an inputs vector that holds every declared port,
    [Node.apply_nonlinear] returns normally, and [residuals['V']] is what
    the two loops accumulate from left to right: starting from [0.], each
    incoming current is added in index order, then each outgoing current is
    added ([circuit.py]) or subtracted ([circuitBat.py]) in index order,
    for any numbers of ports. *)
Theorem Node_residual_accumulates_the_ports_in_order :
  forall (n_in n_out : Z) (inputs outputs residuals : gmap string float),
    declared_inputs_present
      (circuitBat.Node.setup
         {| circuitBat.Node.n_in := n_in; circuitBat.Node.n_out := n_out |}) inputs ->
    circuit.Node.apply_nonlinear
      {| circuit.Node.n_in := n_in; circuit.Node.n_out := n_out |}
      inputs outputs residuals
    = ret (<["V" := fold_left Rplus (port_values inputs "I_out:" n_out)
                      (fold_left Rplus (port_values inputs "I_in:" n_in) 0)]>
             residuals)
    /\ circuitBat.Node.apply_nonlinear
         {| circuitBat.Node.n_in := n_in; circuitBat.Node.n_out := n_out |}
         inputs outputs residuals
       = ret (<["V" := fold_left Rminus (port_values inputs "I_out:" n_out)
                         (fold_left Rplus (port_values inputs "I_in:" n_in) 0)]>
                residuals).
Proof.
  intros n_in n_out inputs outputs residuals Hdecl.
  rewrite circuit_Node_apply_nonlinear_eq, circuitBat_Node_apply_nonlinear_eq.
  cbn [circuit.Node.n_in circuit.Node.n_out
       circuitBat.Node.n_in circuitBat.Node.n_out].
  rewrite (read_all_present inputs (fstr "I_in:" <$> range n_in))
    by (intros k Hk; apply Hdecl, elem_of_app; left; exact Hk).
  rewrite (read_all_present inputs (fstr "I_out:" <$> range n_out))
    by (intros k Hk; apply Hdecl, elem_of_app; right; exact Hk).
  cbn [bind ret]. rewrite !port_values_eq. split; reflexivity.
Qed.

Lemma Node_residual_accumulates_the_ports_in_order_witness :
  declared_inputs_present
    (circuitBat.Node.setup {| circuitBat.Node.n_in := 1; circuitBat.Node.n_out := 2 |})
    {[ "I_in:0" := 0.1; "I_out:0" := 0.07; "I_out:1" := 0.03 ]}
  /\ circuitBat.Node.apply_nonlinear
       {| circuitBat.Node.n_in := 1; circuitBat.Node.n_out := 2 |}
       {[ "I_in:0" := 0.1; "I_out:0" := 0.07; "I_out:1" := 0.03 ]} ∅ ∅
     = ret (<["V" := 0 + 0.1 - 0.07 - 0.03]> ∅).
Proof.
  assert (H : declared_inputs_present
                (circuitBat.Node.setup
                   {| circuitBat.Node.n_in := 1; circuitBat.Node.n_out := 2 |})
                ({[ "I_in:0" := 0.1; "I_out:0" := 0.07; "I_out:1" := 0.03 ]}
                   : gmap string float)).
  { intros v Hv.
    change (v ∈ ["I_in:0"; "I_out:0"; "I_out:1"]) in Hv.
    apply elem_of_cons in Hv as [-> | Hv]; [eexists; reflexivity|].
    apply elem_of_cons in Hv as [-> | Hv]; [eexists; reflexivity|].
    apply elem_of_cons in Hv as [-> | Hv]; [eexists; reflexivity|].
    inversion Hv. }
  split; [exact H|].
  exact (proj2 (Node_residual_accumulates_the_ports_in_order 1 2 _ ∅ ∅ H)).
Defined.

(** X2: [Node.apply_nonlinear], in either script, returns normally exactly
    when the inputs vector holds every port [Node.setup] declared; when it
    raises, the exception is a [KeyError] naming a declared port that the
    vector lacks. *)
Theorem Node_apply_nonlinear_raises_only_KeyError_of_declared_port :
  forall (n_in n_out : Z) (inputs outputs residuals : gmap string float),
    let self := {| circuit.Node.n_in := n_in; circuit.Node.n_out := n_out |} in
    let self' := {| circuitBat.Node.n_in := n_in; circuitBat.Node.n_out := n_out |} in
    (declared_inputs_present (circuit.Node.setup self) inputs
     <-> exists r, circuit.Node.apply_nonlinear self inputs outputs residuals = ret r)
    /\ (declared_inputs_present (circuitBat.Node.setup self') inputs
        <-> exists r,
              circuitBat.Node.apply_nonlinear self' inputs outputs residuals = ret r)
    /\ (forall e,
          circuit.Node.apply_nonlinear self inputs outputs residuals = raise e ->
          exists k, e = KeyError k
                    /\ k ∈ var_inputs (circuit.Node.setup self)
                    /\ inputs !! k = None)
    /\ (forall e,
          circuitBat.Node.apply_nonlinear self' inputs outputs residuals = raise e ->
          exists k, e = KeyError k
                    /\ k ∈ var_inputs (circuitBat.Node.setup self')
                    /\ inputs !! k = None).
Proof.
  intros n_in n_out inputs outputs residuals self self'.
  rewrite circuit_Node_apply_nonlinear_eq, circuitBat_Node_apply_nonlinear_eq.
  destruct (node_loops_outcome Rplus inputs residuals
              (fstr "I_in:" <$> range n_in) (fstr "I_out:" <$> range n_out))
    as [Hret Hraise].
  destruct (node_loops_outcome Rminus inputs residuals
              (fstr "I_in:" <$> range n_in) (fstr "I_out:" <$> range n_out))
    as [Hret' Hraise'].
  split; [exact Hret|]. split; [exact Hret'|]. split; [exact Hraise|exact Hraise'].
Qed.

(** X3: a call of [Node.apply_nonlinear] that returns has assigned
    [residuals['V']] and nothing else: every other entry of [residuals] is
    as it was before the call. *)
Theorem Node_apply_nonlinear_assigns_only_V :
  forall (self : circuit.Node.options) (self' : circuitBat.Node.options)
         (inputs outputs residuals : gmap string float) (k : string),
    k <> "V" ->
    (forall r, circuit.Node.apply_nonlinear self inputs outputs residuals = ret r ->
               r !! k = residuals !! k /\ is_Some (r !! "V"))
    /\ (forall r, circuitBat.Node.apply_nonlinear self' inputs outputs residuals = ret r ->
                  r !! k = residuals !! k /\ is_Some (r !! "V")).
Proof.
  intros self self' inputs outputs residuals k Hk.
  rewrite circuit_Node_apply_nonlinear_eq, circuitBat_Node_apply_nonlinear_eq.
  split.
  - intros r Hr.
    destruct (read_all inputs (fstr "I_in:" <$> range (circuit.Node.n_in self)))
      as [e|ins]; [discriminate Hr|].
    destruct (read_all inputs (fstr "I_out:" <$> range (circuit.Node.n_out self)))
      as [e|outs]; [discriminate Hr|].
    injection Hr as <-. split.
    + apply lookup_insert_ne. congruence.
    + rewrite lookup_insert_eq. eexists; reflexivity.
  - intros r Hr.
    destruct (read_all inputs (fstr "I_in:" <$> range (circuitBat.Node.n_in self')))
      as [e|ins]; [discriminate Hr|].
    destruct (read_all inputs (fstr "I_out:" <$> range (circuitBat.Node.n_out self')))
      as [e|outs]; [discriminate Hr|].
    injection Hr as <-. split.
    + apply lookup_insert_ne. congruence.
    + rewrite lookup_insert_eq. eexists; reflexivity.
Qed.

Lemma Node_apply_nonlinear_assigns_only_V_witness :
  "I" <> "V"
  /\ forall r,
       circuitBat.Node.apply_nonlinear circuitBat.Node.default
         {[ "I_in:0" := 1; "I_out:0" := 1 ]} ∅ {[ "I" := 7 ]} = ret r ->
       r !! "I" = ({[ "I" := 7 ]} : gmap string float) !! "I" /\ is_Some (r !! "V").
Proof.
  assert (H : "I" <> "V") by discriminate.
  split; [exact H|].
  exact (proj2 (Node_apply_nonlinear_assigns_only_V
                  circuit.Node.default circuitBat.Node.default
                  {[ "I_in:0" := 1; "I_out:0" := 1 ]} ∅ {[ "I" := 7 ]} "I" H)).
Defined.

(** X4: with both port counts at most zero, [range] is empty: [Node.setup]
    declares no input, and [Node.apply_nonlinear] returns the residual [0.]
    whatever the inputs vector holds, reading none of it. *)
Theorem Node_without_ports_has_zero_residual :
  forall (n_in n_out : Z) (inputs outputs residuals : gmap string float),
    (n_in <= 0)%Z -> (n_out <= 0)%Z ->
    let self := {| circuit.Node.n_in := n_in; circuit.Node.n_out := n_out |} in
    let self' := {| circuitBat.Node.n_in := n_in; circuitBat.Node.n_out := n_out |} in
    var_inputs (circuit.Node.setup self) = []
    /\ var_inputs (circuitBat.Node.setup self') = []
    /\ circuit.Node.apply_nonlinear self inputs outputs residuals
       = ret (<["V" := 0]> residuals)
    /\ circuitBat.Node.apply_nonlinear self' inputs outputs residuals
       = ret (<["V" := 0]> residuals).
Proof.
  intros n_in n_out inputs outputs residuals Hin Hout self self'.
  assert (Ein : range n_in = []).
  { unfold range, seqZ. replace (Z.to_nat n_in) with 0%nat by lia. reflexivity. }
  assert (Eout : range n_out = []).
  { unfold range, seqZ. replace (Z.to_nat n_out) with 0%nat by lia. reflexivity. }
  unfold circuit.Node.setup, circuitBat.Node.setup,
    circuit.Node.apply_nonlinear, circuitBat.Node.apply_nonlinear.
  cbn [var_inputs circuit.Node.n_in circuit.Node.n_out
       circuitBat.Node.n_in circuitBat.Node.n_out self self'].
  subst self self'.
  cbn [circuit.Node.n_in circuit.Node.n_out
       circuitBat.Node.n_in circuitBat.Node.n_out].
  rewrite Ein, Eout. repeat split; reflexivity.
Qed.

Lemma Node_without_ports_has_zero_residual_witness :
  (-1 <= 0)%Z /\ (0 <= 0)%Z
  /\ circuit.Node.apply_nonlinear
       {| circuit.Node.n_in := -1; circuit.Node.n_out := 0 |} ∅ ∅ {[ "V" := 3 ]}
     = ret (<["V" := 0]> {[ "V" := 3 ]}).
Proof.
  split; [lia|]. split; [lia|].
  refine (proj1 (proj2 (proj2
    (Node_without_ports_has_zero_residual (-1) 0 ∅ ∅ {[ "V" := 3 ]} _ _)))); lia.
Defined.

Lemma fstr_inj (prefix : string) : Inj (=) (=) (fstr prefix).
Proof.
  intros i j H. unfold fstr in H.
  apply (inj (String.append prefix)) in H. exact (inj pretty _ _ H).
Qed.

Lemma fstr_in_out_disjoint (i j : Z) : fstr "I_in:" i <> fstr "I_out:" j.
Proof. unfold fstr. cbn [String.append]. intros H. discriminate H. Qed.

(** X6: the port names [Node.setup] declares are pairwise distinct; there
    are [max(n_in, 0) + max(n_out, 0)] of them, the same in both scripts:
    [I_in:i] for [0 <= i < n_in] and [I_out:i] for [0 <= i < n_out], and no
    others of these two forms. *)
Theorem Node_setup_declares_distinct_ports :
  forall (n_in n_out : Z),
    let self := {| circuit.Node.n_in := n_in; circuit.Node.n_out := n_out |} in
    let self' := {| circuitBat.Node.n_in := n_in; circuitBat.Node.n_out := n_out |} in
    NoDup (var_inputs (circuit.Node.setup self))
    /\ length (var_inputs (circuit.Node.setup self))
       = (Z.to_nat n_in + Z.to_nat n_out)%nat
    /\ var_inputs (circuitBat.Node.setup self') = var_inputs (circuit.Node.setup self)
    /\ (forall i : Z,
          (fstr "I_in:" i ∈ var_inputs (circuit.Node.setup self)
           <-> (0 <= i < n_in)%Z)
          /\ (fstr "I_out:" i ∈ var_inputs (circuit.Node.setup self)
              <-> (0 <= i < n_out)%Z)).
Proof.
  intros n_in n_out self self'. subst self self'.
  unfold circuit.Node.setup, circuitBat.Node.setup.
  cbn [var_inputs circuit.Node.n_in circuit.Node.n_out
       circuitBat.Node.n_in circuitBat.Node.n_out].
  split; [|split; [|split]].
  - apply NoDup_app. split; [|split].
    + apply (NoDup_fmap_2 (fstr "I_in:")). apply NoDup_seqZ.
    + intros k Hin Hout.
      apply list_elem_of_fmap in Hin as (i & -> & _).
      apply list_elem_of_fmap in Hout as (j & Heq & _).
      exact (fstr_in_out_disjoint i j Heq).
    + apply (NoDup_fmap_2 (fstr "I_out:")). apply NoDup_seqZ.
  - rewrite length_app, !length_fmap. unfold range. rewrite !length_seqZ. reflexivity.
  - reflexivity.
  - intros i. split; split.
    + intros Hi. apply elem_of_app in Hi as [Hi|Hi].
      * apply list_elem_of_fmap in Hi as (i' & Heq & Hi').
        apply (fstr_inj "I_in:") in Heq as ->. apply elem_of_range, Hi'.
      * apply list_elem_of_fmap in Hi as (j' & Heq & _).
        destruct (fstr_in_out_disjoint i j' Heq).
    + intros Hi. apply elem_of_app. left.
      apply list_elem_of_fmap. exists i. split; [reflexivity|].
      apply elem_of_range, Hi.
    + intros Hj. apply elem_of_app in Hj as [Hj|Hj].
      * apply list_elem_of_fmap in Hj as (i' & Heq & _).
        destruct (fstr_in_out_disjoint i' i (eq_sym Heq)).
      * apply list_elem_of_fmap in Hj as (j' & Heq & Hj').
        apply (fstr_inj "I_out:") in Heq as ->. apply elem_of_range, Hj'.
    + intros Hj. apply elem_of_app. right.
      apply list_elem_of_fmap. exists i. split; [reflexivity|].
      apply elem_of_range, Hj.
Qed.

(** ** [Resistor] and [Diode] *)

(** X7: for [R > 0] the current [Resistor.compute] stores (the same in
    both scripts) follows the voltage drop: it is nonnegative when
    [V_in >= V_out], nonpositive when [V_in <= V_out], zero when the two
    voltages are equal, does not decrease when [V_in] is raised, and takes
    the opposite value when the terminals are swapped. *)
Theorem Resistor_current_follows_the_voltage_drop :
  forall (r V_in V_in' V_out : float) (inputs outputs : gmap string float),
    0 < r ->
    inputs !! "V_in" = Some V_in ->
    inputs !! "V_out" = Some V_out ->
    exists I I' : float,
      result_at "I" (circuit.Resistor.compute {| circuit.Resistor.R := r |}
                       inputs outputs) = Some I
      /\ result_at "I" (circuitBat.Resistor.compute {| circuitBat.Resistor.R := r |}
                          inputs outputs) = Some I
      /\ result_at "I"
           (circuitBat.Resistor.compute {| circuitBat.Resistor.R := r |}
              (<["V_in" := V_in']> inputs) outputs) = Some I'
      /\ result_at "I"
           (circuitBat.Resistor.compute {| circuitBat.Resistor.R := r |}
              (<["V_in" := V_out]> (<["V_out" := V_in]> inputs)) outputs)
         = Some (- I)
      /\ (V_out <= V_in -> 0 <= I)
      /\ (V_in <= V_out -> I <= 0)
      /\ (V_in = V_out -> I = 0)
      /\ (V_in <= V_in' -> I <= I').
Proof.
  intros r V_in V_in' V_out inputs outputs Hr Hin Hout.
  exists ((V_in - V_out) / r), ((V_in' - V_out) / r).
  rewrite (circuit_Resistor_compute_eq _ _ _ _ _ Hin Hout).
  rewrite (circuitBat_Resistor_compute_eq _ _ _ _ _ Hin Hout).
  rewrite (circuitBat_Resistor_compute_eq _ _ _ V_in' V_out)
    by (rewrite ?lookup_insert_eq, ?lookup_insert_ne by discriminate;
        first [reflexivity | exact Hout]).
  rewrite (circuitBat_Resistor_compute_eq _ _ _ V_out V_in)
    by (rewrite ?lookup_insert_eq, ?lookup_insert_ne by discriminate;
        rewrite ?lookup_insert_eq; reflexivity).
  cbn [result_at ret circuit.Resistor.R circuitBat.Resistor.R].
  rewrite !lookup_insert_eq.
  assert (Hinv : 0 < / r) by (apply Rinv_0_lt_compat; exact Hr).
  split; [reflexivity|]. split; [reflexivity|]. split; [reflexivity|].
  split; [f_equal; unfold Rdiv; ring|].
  unfold Rdiv. repeat split; intros H.
  - nra.
  - nra.
  - subst. ring.
  - nra.
Qed.

Lemma Resistor_current_follows_the_voltage_drop_witness :
  0 < 100
  /\ exists I I' : float,
      result_at "I" (circuit.Resistor.compute {| circuit.Resistor.R := 100 |}
                       {[ "V_in" := 10; "V_out" := 1 ]} ∅) = Some I
      /\ result_at "I" (circuitBat.Resistor.compute {| circuitBat.Resistor.R := 100 |}
                          {[ "V_in" := 10; "V_out" := 1 ]} ∅) = Some I
      /\ result_at "I"
           (circuitBat.Resistor.compute {| circuitBat.Resistor.R := 100 |}
              (<["V_in" := 12]> {[ "V_in" := 10; "V_out" := 1 ]}) ∅) = Some I'
      /\ result_at "I"
           (circuitBat.Resistor.compute {| circuitBat.Resistor.R := 100 |}
              (<["V_in" := 1]> (<["V_out" := 10]>
                 {[ "V_in" := 10; "V_out" := 1 ]})) ∅)
         = Some (- I)
      /\ (1 <= 10 -> 0 <= I)
      /\ (10 <= 1 -> I <= 0)
      /\ (10 = 1 -> I = 0)
      /\ (10 <= 12 -> I <= I').
Proof.
  assert (H : 0 < 100) by lra.
  split; [exact H|].
  exact (Resistor_current_follows_the_voltage_drop 100 10 12 1
           {[ "V_in" := 10; "V_out" := 1 ]} ∅ H eq_refl eq_refl).
Defined.

Lemma exp_div_monotone (Vt a b : float) :
  0 < Vt -> a <= b -> exp (a / Vt) <= exp (b / Vt).
Proof.
  intros HVt [Hlt | ->]; [left|right; reflexivity].
  apply exp_increasing. unfold Rdiv.
  apply Rmult_lt_compat_r; [apply Rinv_0_lt_compat; exact HVt|exact Hlt].
Qed.

Lemma exp_div_0 (Vt : float) : exp (0 / Vt) = 1.
Proof. replace (0 / Vt) with 0 by (unfold Rdiv; ring). apply exp_0. Qed.

(** X8: for [Is > 0] and [Vt > 0] the current [Diode.compute] of
    [circuitBat.py] stores never falls below [-Is] (the reverse current
    saturates), is nonnegative when [V_in >= V_out] and nonpositive when
    [V_in <= V_out], and does not decrease when [V_in] is raised. *)
Theorem Diode_current_is_monotone_and_saturates :
  forall (self : circuitBat.Diode.options) (V_in V_in' V_out : float)
         (inputs outputs : gmap string float),
    0 < circuitBat.Diode.Is self ->
    0 < circuitBat.Diode.Vt self ->
    inputs !! "V_in" = Some V_in ->
    inputs !! "V_out" = Some V_out ->
    exists I I' : float,
      result_at "I" (circuitBat.Diode.compute self inputs outputs) = Some I
      /\ result_at "I" (circuitBat.Diode.compute self
                          (<["V_in" := V_in']> inputs) outputs) = Some I'
      /\ - circuitBat.Diode.Is self <= I
      /\ (V_out <= V_in -> 0 <= I)
      /\ (V_in <= V_out -> I <= 0)
      /\ (V_in <= V_in' -> I <= I').
Proof.
  intros self V_in V_in' V_out inputs outputs HIs HVt Hin Hout.
  eexists _, _.
  rewrite (circuitBat_Diode_compute_eq _ _ _ _ _ Hin Hout).
  rewrite (circuitBat_Diode_compute_eq _ _ _ V_in' V_out)
    by (rewrite ?lookup_insert_eq, ?lookup_insert_ne by discriminate;
        first [reflexivity | exact Hout]).
  cbn [result_at ret]. rewrite !lookup_insert_eq.
  split; [reflexivity|]. split; [reflexivity|].
  set (Is := circuitBat.Diode.Is self) in *.
  set (Vt := circuitBat.Diode.Vt self) in *.
  assert (Hpos : 0 < exp ((V_in - V_out) / Vt)) by apply exp_pos.
  split; [nra|]. split; [|split].
  - intros Hle.
    assert (Hexp : 1 <= exp ((V_in - V_out) / Vt)).
    { rewrite <- (exp_div_0 Vt). apply exp_div_monotone; [exact HVt|lra]. }
    nra.
  - intros Hle.
    assert (Hexp : exp ((V_in - V_out) / Vt) <= 1).
    { rewrite <- (exp_div_0 Vt). apply exp_div_monotone; [exact HVt|lra]. }
    nra.
  - intros Hle.
    assert (Hexp : exp ((V_in - V_out) / Vt) <= exp ((V_in' - V_out) / Vt))
      by (apply exp_div_monotone; [exact HVt|lra]).
    nra.
Qed.

Lemma Diode_current_is_monotone_and_saturates_witness :
  0 < circuitBat.Diode.Is circuitBat.Diode.default
  /\ 0 < circuitBat.Diode.Vt circuitBat.Diode.default
  /\ exists I I' : float,
      result_at "I" (circuitBat.Diode.compute circuitBat.Diode.default
                       {[ "V_in" := 0.7; "V_out" := 0 ]} ∅) = Some I
      /\ result_at "I" (circuitBat.Diode.compute circuitBat.Diode.default
                          (<["V_in" := 1]> {[ "V_in" := 0.7; "V_out" := 0 ]}) ∅)
         = Some I'
      /\ - circuitBat.Diode.Is circuitBat.Diode.default <= I
      /\ (0 <= 0.7 -> 0 <= I)
      /\ (0.7 <= 0 -> I <= 0)
      /\ (0.7 <= 1 -> I <= I').
Proof.
  assert (HIs : 0 < circuitBat.Diode.Is circuitBat.Diode.default)
    by (cbv [circuitBat.Diode.Is circuitBat.Diode.default]; lra).
  assert (HVt : 0 < circuitBat.Diode.Vt circuitBat.Diode.default)
    by (cbv [circuitBat.Diode.Vt circuitBat.Diode.default]; lra).
  split; [exact HIs|]. split; [exact HVt|].
  exact (Diode_current_is_monotone_and_saturates circuitBat.Diode.default
           0.7 1 0 {[ "V_in" := 0.7; "V_out" := 0 ]} ∅ HIs HVt eq_refl eq_refl).
Defined.

(** X9: for [Is > 0] and [Vt > 0], the partial derivative
    [Diode.compute_partials] stores for [V_in] is never negative and the one
    for [V_out] never positive; the former is at least [I / Vt], where [I]
    is the current [Diode.compute] stores on the same inputs, and does not
    decrease when [V_in] is raised. *)
Theorem Diode_partials_have_fixed_signs :
  forall (self : circuitBat.Diode.options) (V_in V_in' V_out : float)
         (inputs outputs : gmap string float) (J : gmap (string * string) float),
    0 < circuitBat.Diode.Is self ->
    0 < circuitBat.Diode.Vt self ->
    inputs !! "V_in" = Some V_in ->
    inputs !! "V_out" = Some V_out ->
    exists (I d_in d_out d_in' : float) (J' J'' : gmap (string * string) float),
      result_at "I" (circuitBat.Diode.compute self inputs outputs) = Some I
      /\ circuitBat.Diode.compute_partials self inputs J = ret J'
      /\ circuitBat.Diode.compute_partials self (<["V_in" := V_in']> inputs) J
         = ret J''
      /\ J' !! ("I", "V_in") = Some d_in
      /\ J' !! ("I", "V_out") = Some d_out
      /\ J'' !! ("I", "V_in") = Some d_in'
      /\ 0 <= d_in
      /\ d_out <= 0
      /\ I / circuitBat.Diode.Vt self <= d_in
      /\ (V_in <= V_in' -> d_in <= d_in').
Proof.
  intros self V_in V_in' V_out inputs outputs J HIs HVt Hin Hout.
  eexists _, _, _, _, _, _.
  rewrite (circuitBat_Diode_compute_eq _ _ _ _ _ Hin Hout).
  rewrite (circuitBat_Diode_compute_partials_eq _ _ _ _ _ Hin Hout).
  rewrite (circuitBat_Diode_compute_partials_eq _ _ _ V_in' V_out)
    by (rewrite ?lookup_insert_eq, ?lookup_insert_ne by discriminate;
        first [reflexivity | exact Hout]).
  cbn [result_at ret]. rewrite lookup_insert_eq.
  split; [reflexivity|]. split; [reflexivity|]. split; [reflexivity|].
  split; [rewrite lookup_insert_ne by discriminate; apply lookup_insert_eq|].
  split; [apply lookup_insert_eq|].
  split; [rewrite lookup_insert_ne by discriminate; apply lookup_insert_eq|].
  set (Is := circuitBat.Diode.Is self) in *.
  set (Vt := circuitBat.Diode.Vt self) in *.
  assert (Hpos : 0 < exp ((V_in - V_out) / Vt)) by apply exp_pos.
  assert (Hinv : 0 < / Vt) by (apply Rinv_0_lt_compat; exact HVt).
  assert (Hprod : 0 < Is * exp ((V_in - V_out) / Vt))
    by (apply Rmult_lt_0_compat; assumption).
  unfold Rdiv. split; [nra|]. split; [nra|]. split; [nra|].
  intros Hle.
  assert (Hexp : exp ((V_in - V_out) / Vt) <= exp ((V_in' - V_out) / Vt))
    by (apply exp_div_monotone; [exact HVt|lra]).
  unfold Rdiv in Hexp.
  apply Rmult_le_compat_r; [lra|]. apply Rmult_le_compat_l; [lra|exact Hexp].
Qed.

Lemma Diode_partials_have_fixed_signs_witness :
  0 < circuitBat.Diode.Is circuitBat.Diode.default
  /\ 0 < circuitBat.Diode.Vt circuitBat.Diode.default
  /\ exists (I d_in d_out d_in' : float) (J' J'' : gmap (string * string) float),
      result_at "I" (circuitBat.Diode.compute circuitBat.Diode.default
                       {[ "V_in" := 0.7; "V_out" := 0 ]} ∅) = Some I
      /\ circuitBat.Diode.compute_partials circuitBat.Diode.default
           {[ "V_in" := 0.7; "V_out" := 0 ]} ∅ = ret J'
      /\ circuitBat.Diode.compute_partials circuitBat.Diode.default
           (<["V_in" := 1]> {[ "V_in" := 0.7; "V_out" := 0 ]}) ∅ = ret J''
      /\ J' !! ("I", "V_in") = Some d_in
      /\ J' !! ("I", "V_out") = Some d_out
      /\ J'' !! ("I", "V_in") = Some d_in'
      /\ 0 <= d_in
      /\ d_out <= 0
      /\ I / circuitBat.Diode.Vt circuitBat.Diode.default <= d_in
      /\ (0.7 <= 1 -> d_in <= d_in').
Proof.
  assert (HIs : 0 < circuitBat.Diode.Is circuitBat.Diode.default)
    by (cbv [circuitBat.Diode.Is circuitBat.Diode.default]; lra).
  assert (HVt : 0 < circuitBat.Diode.Vt circuitBat.Diode.default)
    by (cbv [circuitBat.Diode.Vt circuitBat.Diode.default]; lra).
  split; [exact HIs|]. split; [exact HVt|].
  exact (Diode_partials_have_fixed_signs circuitBat.Diode.default 0.7 1 0
           {[ "V_in" := 0.7; "V_out" := 0 ]} ∅ ∅ HIs HVt eq_refl eq_refl).
Defined.

Lemma circuitBat_Diode_compute_partials_outcome (self : circuitBat.Diode.options)
    (inputs : gmap string float) (J : gmap (string * string) float) :
  circuitBat.Diode.compute_partials self inputs J
  = (V_in <- getitem inputs "V_in" ;;
     V_out <- getitem inputs "V_out" ;;
     ret (<[("I", "V_out") :=
              - (circuitBat.Diode.Is self
                 * exp ((V_in - V_out) / circuitBat.Diode.Vt self))
              / circuitBat.Diode.Vt self]>
            (<[("I", "V_in") :=
                 circuitBat.Diode.Is self
                 * exp ((V_in - V_out) / circuitBat.Diode.Vt self)
                 / circuitBat.Diode.Vt self]> J))).
Proof.
  unfold circuitBat.Diode.compute_partials.
  destruct (getitem inputs "V_in") as [e|V_in]; [reflexivity|].
  destruct (getitem inputs "V_out") as [e|V_out]; [reflexivity|].
  cbn [bind]. rewrite (load_global_bound _ _ np_bound_in_circuitBat). reflexivity.
Qed.

Lemma circuitBat_Diode_compute_outcome (self : circuitBat.Diode.options)
    (inputs outputs : gmap string float) :
  circuitBat.Diode.compute self inputs outputs
  = (V_in <- getitem inputs "V_in" ;;
     V_out <- getitem inputs "V_out" ;;
     ret (<["I" := circuitBat.Diode.Is self
                   * (exp ((V_in - V_out) / circuitBat.Diode.Vt self) - 1)]> outputs)).
Proof.
  unfold circuitBat.Diode.compute.
  destruct (getitem inputs "V_in") as [e|V_in]; [reflexivity|].
  destruct (getitem inputs "V_out") as [e|V_out]; [reflexivity|].
  cbn [bind]. rewrite (load_global_bound _ _ np_bound_in_circuitBat). reflexivity.
Qed.

(** X10: [Diode.compute_partials] of [circuitBat.py] raises exactly the
    exceptions [Diode.compute] raises on the same inputs. When it returns,
    it has filled every partial that [Diode.setup] declared without a value
    and has left every other entry of [J] as it was. *)
Theorem Diode_compute_partials_fills_declared_partials :
  forall (self : circuitBat.Diode.options) (inputs outputs : gmap string float)
         (J : gmap (string * string) float),
    (forall e, circuitBat.Diode.compute_partials self inputs J = raise e
               <-> circuitBat.Diode.compute self inputs outputs = raise e)
    /\ (forall J', circuitBat.Diode.compute_partials self inputs J = ret J' ->
          forall out wrt : string,
            ((out, wrt, analytic) ∈ var_partials (circuitBat.Diode.setup self)
             -> is_Some (J' !! (out, wrt)))
            /\ ((out, wrt, analytic) ∉ var_partials (circuitBat.Diode.setup self)
                -> J' !! (out, wrt) = J !! (out, wrt))).
Proof.
  intros self inputs outputs J.
  rewrite circuitBat_Diode_compute_partials_outcome, circuitBat_Diode_compute_outcome.
  split.
  - intros e.
    destruct (getitem inputs "V_in") as [e1|V_in];
      [cbn [bind raise]; split; intros [= ->]; reflexivity|].
    destruct (getitem inputs "V_out") as [e2|V_out];
      [cbn [bind raise]; split; intros [= ->]; reflexivity|].
    cbn [bind ret raise]. split; intros H; discriminate H.
  - intros J' HJ' out wrt.
    destruct (getitem inputs "V_in") as [e1|V_in]; [discriminate HJ'|].
    destruct (getitem inputs "V_out") as [e2|V_out]; [discriminate HJ'|].
    injection HJ' as <-. cbn [var_partials circuitBat.Diode.setup]. split.
    + intros Hin.
      apply elem_of_cons in Hin as [Heq|Hin].
      { injection Heq as -> ->.
        rewrite lookup_insert_ne by discriminate. rewrite lookup_insert_eq.
        eexists; reflexivity. }
      apply elem_of_cons in Hin as [Heq|Hin]; [|inversion Hin].
      injection Heq as -> ->. rewrite lookup_insert_eq. eexists; reflexivity.
    + intros Hnin.
      rewrite !lookup_insert_ne; [reflexivity| |].
      * intros Heq. apply Hnin. injection Heq as <- <-. left.
      * intros Heq. apply Hnin. injection Heq as <- <-. right. left.
Qed.

(** ** The assembled model of [circuitBat.py] *)

(** What each component of the circuit reads from the store. *)
Lemma circuitBat_component_inputs (store : gmap string float) :
  let R1 := circuitBat.circuit_inputs store "R1"
              (circuitBat.Resistor.setup circuitBat.Circuit.R1) in
  let R2 := circuitBat.circuit_inputs store "R2"
              (circuitBat.Resistor.setup circuitBat.Circuit.R2) in
  let D1 := circuitBat.circuit_inputs store "D1"
              (circuitBat.Diode.setup circuitBat.Circuit.D1) in
  let n2 := circuitBat.circuit_inputs store "n2"
              (circuitBat.Node.setup circuitBat.Circuit.n2) in
  R1 !! "V_in" = store !! "circuit.n1.V"
  /\ R1 !! "V_out" = store !! "ground.V"
  /\ R2 !! "V_in" = store !! "circuit.n1.V"
  /\ R2 !! "V_out" = store !! "circuit.n2.V"
  /\ D1 !! "V_in" = store !! "circuit.n2.V"
  /\ D1 !! "V_out" = store !! "ground.V"
  /\ n2 !! "I_in:0" = store !! "circuit.R2.I"
  /\ n2 !! "I_out:0" = store !! "circuit.D1.I".
Proof.
  cbv zeta. unfold circuitBat.circuit_inputs. rewrite !gather_lookup.
  repeat split; reflexivity.
Qed.

Lemma circuitBat_Resistor_compute_outcome (self : circuitBat.Resistor.options)
    (inputs outputs : gmap string float) :
  circuitBat.Resistor.compute self inputs outputs
  = match inputs !! "V_in", inputs !! "V_out" with
    | Some V_in, Some V_out =>
        ret (<["I" := (V_in - V_out) / circuitBat.Resistor.R self]> outputs)
    | Some _, None => raise (KeyError "V_out")
    | None, _ => raise (KeyError "V_in")
    end.
Proof.
  unfold circuitBat.Resistor.compute, getitem.
  destruct (inputs !! "V_in"); [|reflexivity].
  destruct (inputs !! "V_out"); reflexivity.
Qed.

Lemma circuitBat_Diode_compute_cases (self : circuitBat.Diode.options)
    (inputs outputs : gmap string float) :
  circuitBat.Diode.compute self inputs outputs
  = match inputs !! "V_in", inputs !! "V_out" with
    | Some V_in, Some V_out =>
        ret (<["I" := circuitBat.Diode.Is self
                      * (exp ((V_in - V_out) / circuitBat.Diode.Vt self) - 1)]>
               outputs)
    | Some _, None => raise (KeyError "V_out")
    | None, _ => raise (KeyError "V_in")
    end.
Proof.
  rewrite circuitBat_Diode_compute_outcome. unfold getitem.
  destruct (inputs !! "V_in"); [|reflexivity].
  destruct (inputs !! "V_out"); reflexivity.
Qed.

Lemma circuitBat_n2_residual (store residuals : gmap string float) (i2 id : float) :
  store !! "circuit.R2.I" = Some i2 ->
  store !! "circuit.D1.I" = Some id ->
  circuitBat.n2_apply_nonlinear store residuals = ret (<["V" := 0 + i2 - id]> residuals).
Proof.
  intros H2 Hd. unfold circuitBat.n2_apply_nonlinear.
  rewrite circuitBat_Node_apply_nonlinear_eq.
  destruct (circuitBat_component_inputs store) as (_ & _ & _ & _ & _ & _ & Ein & Eout).
  change (fstr "I_in:" <$> range (circuitBat.Node.n_in circuitBat.Circuit.n2))
    with ["I_in:0"].
  change (fstr "I_out:" <$> range (circuitBat.Node.n_out circuitBat.Circuit.n2))
    with ["I_out:0"].
  cbn [read_all].
  rewrite (getitem_Some _ _ i2) by (rewrite Ein; exact H2).
  rewrite (getitem_Some _ _ id) by (rewrite Eout; exact Hd).
  reflexivity.
Qed.

(** The voltages and the circuit equation behind a balanced node 2. *)
Lemma node2_balanced_equation (store : gmap string float) :
  node2_balanced store ->
  exists v1 v2 vg : float,
    store !! "circuit.n1.V" = Some v1
    /\ store !! "circuit.n2.V" = Some v2
    /\ store !! "ground.V" = Some vg
    /\ store !! "circuit.R2.I" = Some ((v1 - v2) / 10000)
    /\ store !! "circuit.D1.I" = Some (1e-15 * (exp ((v2 - vg) / 0.025875) - 1))
    /\ (v1 - v2) / 10000 = 1e-15 * (exp ((v2 - vg) / 0.025875) - 1).
Proof.
  intros ((i2 & Hc2 & Hs2) & (id & Hcd & Hsd) & Hres).
  destruct (circuitBat_component_inputs store)
    as (_ & _ & E2in & E2out & Edin & Edout & _ & _).
  unfold circuitBat.R2_compute in Hc2.
  rewrite circuitBat_Resistor_compute_outcome, E2in, E2out in Hc2.
  unfold circuitBat.D1_compute in Hcd.
  rewrite circuitBat_Diode_compute_cases, Edin, Edout in Hcd.
  destruct (store !! "circuit.n1.V") as [v1|]; [|discriminate Hc2].
  destruct (store !! "circuit.n2.V") as [v2|]; [|discriminate Hc2].
  destruct (store !! "ground.V") as [vg|]; [|discriminate Hcd].
  cbn [result_at ret] in Hc2, Hcd. rewrite lookup_insert_eq in Hc2, Hcd.
  injection Hc2 as <-. injection Hcd as <-.
  rewrite (circuitBat_n2_residual _ _ _ _ Hs2 Hsd) in Hres.
  cbn [result_at ret] in Hres. rewrite lookup_insert_eq in Hres.
  injection Hres as Hres.
  exists v1, v2, vg.
  split; [reflexivity|]. split; [reflexivity|]. split; [reflexivity|].
  split; [exact Hs2|]. split; [exact Hsd|].
  cbv [circuitBat.Resistor.R circuitBat.Circuit.R2 circuitBat.Diode.Is
       circuitBat.Diode.Vt circuitBat.Circuit.D1 circuitBat.Diode.default] in Hres.
  lra.
Qed.

(** In [conducting_store] node 2 is balanced: [1e-15 * (e - 1)] amperes
    flow through [R2] and through the diode. *)
Lemma conducting_store_balanced : node2_balanced conducting_store.
Proof.
  destruct (circuitBat_component_inputs conducting_store)
    as (_ & _ & E2in & E2out & Edin & Edout & _ & _).
  split; [|split].
  - exists ((0.025875 + 1e-11 * (exp 1 - 1) - 0.025875) / 10000).
    split; [|reflexivity].
    unfold circuitBat.R2_compute.
    rewrite circuitBat_Resistor_compute_outcome, E2in, E2out.
    reflexivity.
  - exists (1e-15 * (exp ((0.025875 - 0) / 0.025875) - 1)). split; [|reflexivity].
    unfold circuitBat.D1_compute.
    rewrite circuitBat_Diode_compute_cases, Edin, Edout.
    reflexivity.
  - rewrite (circuitBat_n2_residual conducting_store ∅
               ((0.025875 + 1e-11 * (exp 1 - 1) - 0.025875) / 10000)
               (1e-15 * (exp ((0.025875 - 0) / 0.025875) - 1))) by reflexivity.
    cbn [result_at ret]. rewrite lookup_insert_eq. f_equal.
    replace ((0.025875 - 0) / 0.025875) with 1 by lra.
    generalize (exp 1). intros e. lra.
Qed.

(** X11: in the model of [circuitBat.py], a store in which [R2.I] and
    [D1.I] are what the two components compute and the residual of node
    [n2] is zero satisfies the circuit equation
    [(n1.V - n2.V) / 10000 = 1e-15 * (exp ((n2.V - ground.V) / 0.025875) - 1)]:
    the current through [R2] is the diode current. *)
Theorem circuitBat_node2_balance_is_the_diode_equation :
  forall store : gmap string float,
    node2_balanced store ->
    exists v1 v2 vg : float,
      store !! "circuit.n1.V" = Some v1
      /\ store !! "circuit.n2.V" = Some v2
      /\ store !! "ground.V" = Some vg
      /\ store !! "circuit.R2.I" = store !! "circuit.D1.I"
      /\ (v1 - v2) / 10000 = 1e-15 * (exp ((v2 - vg) / 0.025875) - 1).
Proof.
  intros store Hbal.
  destruct (node2_balanced_equation store Hbal)
    as (v1 & v2 & vg & H1 & H2 & Hg & HR & HD & Heq).
  exists v1, v2, vg. repeat (split; [assumption|]).
  split; [|exact Heq]. rewrite HR, HD, Heq. reflexivity.
Qed.

Lemma circuitBat_node2_balance_is_the_diode_equation_witness :
  node2_balanced conducting_store
  /\ exists v1 v2 vg : float,
      conducting_store !! "circuit.n1.V" = Some v1
      /\ conducting_store !! "circuit.n2.V" = Some v2
      /\ conducting_store !! "ground.V" = Some vg
      /\ conducting_store !! "circuit.R2.I" = conducting_store !! "circuit.D1.I"
      /\ (v1 - v2) / 10000 = 1e-15 * (exp ((v2 - vg) / 0.025875) - 1).
Proof.
  split; [exact conducting_store_balanced|].
  exact (circuitBat_node2_balance_is_the_diode_equation _ conducting_store_balanced).
Defined.

(** X13: in the model of [circuitBat.py], the residual of node [n1] is zero
    exactly when the current from the balance less the current through [R1]
    equals the current through [R2] (the order in which the loop takes them
    off), and the residual of node [n2] is zero exactly when the current
    through [R2] equals the diode current. *)
Theorem circuitBat_zero_residual_is_kirchhoff :
  forall (store residuals : gmap string float) (i_in i1 i2 id : float),
    store !! "batt_balance.I" = Some i_in ->
    store !! "circuit.R1.I" = Some i1 ->
    store !! "circuit.R2.I" = Some i2 ->
    store !! "circuit.D1.I" = Some id ->
    (result_at "V" (circuitBat.n1_apply_nonlinear store residuals) = Some 0
     <-> i_in - i1 = i2)
    /\ (result_at "V" (circuitBat.n2_apply_nonlinear store residuals) = Some 0
        <-> i2 = id).
Proof.
  intros store residuals i_in i1 i2 id Hin H1 H2 Hd.
  rewrite (circuitBat_n1_residual _ _ _ _ _ Hin H1 H2).
  rewrite (circuitBat_n2_residual _ _ _ _ H2 Hd).
  cbn [result_at ret]. rewrite !lookup_insert_eq.
  split; split; intros H.
  - injection H as H. lra.
  - f_equal. lra.
  - injection H as H. lra.
  - f_equal. lra.
Qed.

Lemma circuitBat_zero_residual_is_kirchhoff_witness :
  ({[ "batt_balance.I" := 0.1; "circuit.R1.I" := 0.07;
      "circuit.R2.I" := 0.03; "circuit.D1.I" := 0.03 ]} : gmap string float)
    !! "batt_balance.I" = Some 0.1
  /\ (result_at "V"
        (circuitBat.n1_apply_nonlinear
           {[ "batt_balance.I" := 0.1; "circuit.R1.I" := 0.07;
              "circuit.R2.I" := 0.03; "circuit.D1.I" := 0.03 ]} ∅) = Some 0
      <-> 0.1 - 0.07 = 0.03)
  /\ (result_at "V"
        (circuitBat.n2_apply_nonlinear
           {[ "batt_balance.I" := 0.1; "circuit.R1.I" := 0.07;
              "circuit.R2.I" := 0.03; "circuit.D1.I" := 0.03 ]} ∅) = Some 0
      <-> 0.03 = 0.03).
Proof.
  split; [reflexivity|].
  exact (circuitBat_zero_residual_is_kirchhoff
           {[ "batt_balance.I" := 0.1; "circuit.R1.I" := 0.07;
              "circuit.R2.I" := 0.03; "circuit.D1.I" := 0.03 ]} ∅
           0.1 0.07 0.03 0.03 eq_refl eq_refl eq_refl eq_refl).
Defined.

(** ** The node residuals and the voltages *)

Lemma gather_ext (store1 store2 : gmap string float)
    (src_of : string -> option string) (declared : list string) :
  (forall v src, v ∈ declared -> src_of v = Some src -> store1 !! src = store2 !! src) ->
  om.gather store1 src_of declared = om.gather store2 src_of declared.
Proof.
  intros H. apply map_eq. intros v. rewrite !gather_lookup.
  destruct (decide (v ∈ declared)) as [Hv|]; [|reflexivity].
  destruct (src_of v) as [src|] eqn:Hsrc; [|reflexivity].
  exact (H v src Hv Hsrc).
Qed.

Lemma lookup_set_voltages_other (store : gmap string float) (g a b : float)
    (k : string) :
  k <> "ground.V" -> k <> "circuit.n1.V" -> k <> "circuit.n2.V" ->
  <["circuit.n1.V" := a]> (<["circuit.n2.V" := b]> (<["ground.V" := g]> store)) !! k
  = store !! k.
Proof. intros Hg H1 H2. rewrite !lookup_insert_ne by congruence. reflexivity. Qed.

(** X14: in the assembled model of either script the residuals of the two
    nodes depend on the store through the currents only: whatever values
    are put under [ground.V], [circuit.n1.V] and [circuit.n2.V], both calls
    of [Node.apply_nonlinear] return what they returned before. *)
Theorem node_residuals_do_not_read_the_voltages :
  forall (store residuals : gmap string float) (g a b : float),
    let store' :=
      <["circuit.n1.V" := a]> (<["circuit.n2.V" := b]> (<["ground.V" := g]> store)) in
    circuit.n1_apply_nonlinear store' residuals
      = circuit.n1_apply_nonlinear store residuals
    /\ circuit.n2_apply_nonlinear store' residuals
       = circuit.n2_apply_nonlinear store residuals
    /\ circuitBat.n1_apply_nonlinear store' residuals
       = circuitBat.n1_apply_nonlinear store residuals
    /\ circuitBat.n2_apply_nonlinear store' residuals
       = circuitBat.n2_apply_nonlinear store residuals.
Proof.
  intros store residuals g a b store'. subst store'.
  unfold circuit.n1_apply_nonlinear, circuit.n2_apply_nonlinear,
    circuitBat.n1_apply_nonlinear, circuitBat.n2_apply_nonlinear.
  rewrite !circuit_Node_apply_nonlinear_eq, !circuitBat_Node_apply_nonlinear_eq.
  unfold circuit.circuit_inputs, circuitBat.circuit_inputs.
  split; [|split; [|split]].
  - rewrite (gather_ext _ store); [reflexivity|].
    intros v src Hv Hsrc.
    change (v ∈ ["I_in:0"; "I_out:0"; "I_out:1"]) in Hv.
    repeat (apply elem_of_cons in Hv as [-> | Hv];
            [vm_compute in Hsrc; injection Hsrc as <-;
             apply lookup_set_voltages_other; discriminate|]).
    inversion Hv.
  - rewrite (gather_ext _ store); [reflexivity|].
    intros v src Hv Hsrc.
    change (v ∈ ["I_in:0"; "I_out:0"]) in Hv.
    repeat (apply elem_of_cons in Hv as [-> | Hv];
            [vm_compute in Hsrc; injection Hsrc as <-;
             apply lookup_set_voltages_other; discriminate|]).
    inversion Hv.
  - rewrite (gather_ext _ store); [reflexivity|].
    intros v src Hv Hsrc.
    change (v ∈ ["I_in:0"; "I_out:0"; "I_out:1"]) in Hv.
    repeat (apply elem_of_cons in Hv as [-> | Hv];
            [vm_compute in Hsrc; injection Hsrc as <-;
             apply lookup_set_voltages_other; discriminate|]).
    inversion Hv.
  - rewrite (gather_ext _ store); [reflexivity|].
    intros v src Hv Hsrc.
    change (v ∈ ["I_in:0"; "I_out:0"]) in Hv.
    repeat (apply elem_of_cons in Hv as [-> | Hv];
            [vm_compute in Hsrc; injection Hsrc as <-;
             apply lookup_set_voltages_other; discriminate|]).
    inversion Hv.
Qed.

(** ** The two [Circuit] classes *)

(** X15: [Circuit.setup] wires the same circuit in both scripts: every
    input of every subsystem has the same source, the connections are the
    same, and the group exposes the same inputs [I_in] and [Vg] and the
    same outputs. The scripts differ in the components, not in the
    topology. *)
Theorem Circuit_setup_wiring_is_the_same_in_both_scripts :
  forall sub v : string,
    om.source_of circuitBat.Circuit.setup sub v
      = om.source_of circuit.Circuit.setup sub v
    /\ om.connections circuitBat.Circuit.setup = om.connections circuit.Circuit.setup
    /\ var_inputs (om.Group_vars circuitBat.Circuit.setup) = ["I_in"; "Vg"]
    /\ var_inputs (om.Group_vars circuit.Circuit.setup) = ["I_in"; "Vg"]
    /\ var_outputs (om.Group_vars circuitBat.Circuit.setup)
       = var_outputs (om.Group_vars circuit.Circuit.setup).
Proof.
  intros sub v.
  split; [|split; [reflexivity|split; [vm_compute; reflexivity|
                                split; vm_compute; reflexivity]]].
  unfold om.source_of, om.find_subsystem,
    circuit.Circuit.setup, circuitBat.Circuit.setup.
  cbn [om.subsystems list_find om.name].
  repeat (case_decide; [reflexivity|]).
  reflexivity.
Qed.
